(** * Cross-matching of photometric catalogs: [join_catalogs]

    A shallow embedding of the routine [join_catalogs] of the notebook
    [standard.ipynb] and of the renaming loop that follows its first call.

    The notebook hands three astropy tables to [join_catalogs]:
    - [index_table], built by the callers with the two columns ['index']
      (row number of the nearest star of the right catalog) and ['distance']
      (angular separation in degrees), one row per row of the left catalog;
    - [left_table] and [right_table], tables with arbitrary named columns.

    Distances are IEEE doubles in the notebook.  Every finite double is a
    rational number and the routine only compares them, so the ['distance']
    column is embedded as [Q] with the exact order of the rationals. *)

From Stdlib Require Import Ascii QArith Lqa.
From stdpp Require Import base option list strings sorting.

Local Close Scope Q_scope.
Local Open Scope string_scope.
Local Open Scope list_scope.
Local Open Scope nat_scope.

(** ** Outcomes of a call *)

(** The exceptions the embedded code can raise. *)
Inductive exn : Type :=
| IndexError
| KeyError
| TableMergeError
| ValueError
| TypeError.

(** A call returns, raises, or reaches [table.hstack] with tables of unequal
    length.  In the last case astropy does not raise: its outer join pads the
    shorter tables with masked rows and the routine goes on with them.
    Masked cells are not embedded, and the run is not followed beyond that
    point: [MaskedPadding] says that it left the embedded part of the code,
    not what the code does next.  Both callers build [index_table] from the
    positions of the left catalog, with one row per row of [left_table]. *)
Inductive outcome (A : Type) : Type :=
| Ok (a : A)
| Raise (e : exn)
| MaskedPadding.

Arguments Ok {A} a.
Arguments Raise {A} e.
Arguments MaskedPadding {A}.

#[global] Instance outcome_ret : MRet outcome := λ A a, Ok a.
#[global] Instance outcome_bind : MBind outcome := λ A B f m,
  match m with
  | Ok a => f a
  | Raise e => Raise e
  | MaskedPadding => MaskedPadding
  end.

(** ** Comparisons on the key columns *)

(** [d < c] on the ['distance'] column. *)
Definition Qltb (x y : Q) : bool := negb (Qle_bool y x).

(** One row of [index_table]: the row number of the nearest star of the right
    catalog, which [match_to_catalog_sky] gives as an integer that is not
    negative, and the angular separation in degrees. *)
Record Candidate : Type := { index : nat; distance : Q }.

(** Lexicographic order of [Table.sort(['index', 'distance'])]. *)
Definition key_leb (a b : Candidate) : bool :=
  (index a <? index b)%nat
  || ((index a =? index b)%nat && Qle_bool (distance a) (distance b)).

Definition key_le (a b : Candidate) : Prop := key_leb a b = true.

#[global] Instance key_le_dec : RelDecision key_le :=
  λ a b, decide (key_leb a b = true).

(** ** Row selection, for rows of any shape carrying a key *)

Section Rows.
Context {A : Type} (key : A → Candidate).

Definition row_le (x y : A) : Prop := key_le (key x) (key y).

#[global] Instance row_le_dec : RelDecision row_le :=
  λ x y, decide (key_le (key x) (key y)).

(** [matched.sort(['index', 'distance'])]: the rows in ascending order of
    the pair (index, distance).  numpy's sort is not stable: among rows with
    the same index and the same distance, the row it puts first need not be
    the one the merge sort puts first, and the embedding follows the code
    only up to the order of such rows.  The lemmas on the selection use only
    that the sorted rows are the same rows, in ascending order of the
    pair. *)
Definition sort_rows (rows : list A) : list A := merge_sort row_le rows.

Definition index_column (rows : list A) : list nat := (index ∘ key) <$> rows.
Definition distance_column (rows : list A) : list Q := (distance ∘ key) <$> rows.
End Rows.

(** [[True] + [star != oldstar for star, oldstar in zip(index, index[1:])]] *)
Definition good_match (index : list nat) : list bool :=
  true :: zip_with (λ star oldstar, negb (star =? oldstar)%nat) index (tail index).

(** [matched['distance'] < max_separation], element by element. *)
Definition nearby (max_separation : Q) (distance : list Q) : list bool :=
  (λ d, Qltb d max_separation) <$> distance.

(** [good_match * nearby]: numpy's product of two boolean sequences, which is
    their conjunction, with numpy's broadcasting of a sequence of length
    one.  [good_match] is a Python list of length [max 1 n] and [nearby] has
    length [n], so that the broadcast case is the one of an empty table. *)
Definition broadcast_mul (a b : list bool) : outcome (list bool) :=
  if (length a =? length b)%nat then Ok (zip_with andb a b)
  else match a, b with
       | [x], _ => Ok (andb x <$> b)
       | _, [y] => Ok ((λ x, andb x y) <$> a)
       | _, _ => Raise ValueError
       end.

(** [rows[mask]] for a boolean mask: the rows whose flag is set; numpy
    refuses a mask whose length is not the number of rows. *)
Definition getitem_mask {A : Type} (rows : list A) (mask : list bool)
  : outcome (list A) :=
  if (length mask =? length rows)%nat
  then Ok ((filter (λ rb, snd rb = true) (zip rows mask)).*1)
  else Raise IndexError.

(** ** Tables *)

Section Tables.
Context {V : Type}.

(** A table with named columns, kept row by row; every row has one cell
    per column name. *)
Record Table : Type := { colnames : list string; rows : list (list V) }.

(** A row of [matched]: the two cells of [index_table], then the cells of
    the left row, then the cells of the selected right row. *)
Record MatchedRow : Type :=
  { m_key : Candidate; m_left : list V; m_right : list V }.

(** The table [matched]: the column names [hstack] gave to the columns of
    its three arguments, and the rows. *)
Record Matched : Type :=
  { m_index_names : list string;
    m_left_names : list string;
    m_right_names : list string;
    m_rows : list MatchedRow }.

Definition m_colnames (m : Matched) : list string :=
  (m_index_names m ++ m_left_names m ++ m_right_names m)%list.
End Tables.

Arguments Table V : clear implicits.
Arguments MatchedRow V : clear implicits.
Arguments Matched V : clear implicits.

(** *** Column names given by [table.hstack]

    astropy's [hstack] is called with its defaults
    [uniq_col_name='{col_name}_{table_name}'] and table names ['1'], ['2'],
    ['3']: a column whose name also is a column name of one of the other
    tables is renamed, the others keep their name, and a name that would
    occur twice in the result raises [TableMergeError]. *)

Definition uniq_col_name (col_name table_name : string) : string :=
  col_name +:+ "_" +:+ table_name.

Definition out_name (others : list (list string)) (table_name name : string)
  : string :=
  if existsb (λ other, bool_decide (name ∈ other)) others
  then uniq_col_name name table_name
  else name.

Definition hstack_colnames (n1 n2 n3 : list string)
  : outcome (list string * list string * list string) :=
  let o1 := out_name [n2; n3] "1" <$> n1 in
  let o2 := out_name [n1; n3] "2" <$> n2 in
  let o3 := out_name [n1; n2] "3" <$> n3 in
  if bool_decide (NoDup (o1 ++ o2 ++ o3)%list)
  then Ok (o1, o2, o3)
  else Raise TableMergeError.

(** The column names of [index_table], as both callers build it. *)
Definition index_table_colnames : list string := ["index"; "distance"].

Section Join.
Context {V : Type}.

(** [right_table[index_table['index']]]: the rows of [right_table] at the
    given row numbers, [IndexError] when one is out of range.  The rows are
    taken column by column: a table without columns has no rows, and nothing
    is taken from it nor raised, which the statements on [IndexError]
    exclude by asking for a column. *)
Definition getitem_rows (t : Table V) (idx : list nat) : outcome (Table V) :=
  match mapM (λ i, rows t !! i) idx with
  | Some rs => Ok {| colnames := colnames t; rows := rs |}
  | None => Raise IndexError
  end.

Fixpoint zip_rows (cs : list Candidate) (ls rs : list (list V))
  : list (MatchedRow V) :=
  match cs, ls, rs with
  | c :: cs, l :: ls, r :: rs =>
      {| m_key := c; m_left := l; m_right := r |} :: zip_rows cs ls rs
  | _, _, _ => []
  end.

(** [table.hstack([index_table, left_table, right_sel])]. *)
Definition hstack (index_table : list Candidate)
    (left_table right_sel : Table V) : outcome (Matched V) :=
  '(n1, n2, n3) ← hstack_colnames index_table_colnames
                    (colnames left_table) (colnames right_sel);
  if (length index_table =? length (rows left_table))%nat
     && (length index_table =? length (rows right_sel))%nat
  then Ok {| m_index_names := n1; m_left_names := n2; m_right_names := n3;
             m_rows := zip_rows index_table (rows left_table) (rows right_sel) |}
  else MaskedPadding.

(** [matched[name]] for one of the two key columns: [KeyError] unless
    [name] is a column name of [matched].  A column of [matched] called
    ['index'] or ['distance'] is the column of [index_table] of that name
    (lemma [key_columns_of_index_table]), whose cells [col] are. *)
Definition getitem_key {B : Type} (m : Matched V) (name : string)
    (col : list B) : outcome (list B) :=
  if bool_decide (name ∈ m_colnames m) then Ok col else Raise KeyError.

(** [matched.sort(['index', 'distance'])]: [ValueError] unless both keys
    are column names of [matched]. *)
Definition table_sort (m : Matched V) : outcome (Matched V) :=
  if bool_decide ("index" ∈ m_colnames m)
     && bool_decide ("distance" ∈ m_colnames m)
  then Ok {| m_index_names := m_index_names m; m_left_names := m_left_names m;
             m_right_names := m_right_names m;
             m_rows := sort_rows m_key (m_rows m) |}
  else Raise ValueError.

(** [del result['index', 'distance']]. *)
Definition del_index_distance (m : Matched V) : Table V :=
  {| colnames := (m_left_names m ++ m_right_names m)%list;
     rows := (λ r, (m_left r ++ m_right r)%list) <$> m_rows m |}.

(** The body of [join_catalogs], with the cut-off of its comparison
    [matched['distance'] < coord.Angle('3 arcsec').degree] as a
    parameter. *)
Definition join_catalogs_within (max_separation : Q)
    (index_table : list Candidate) (left_table right_table : Table V)
  : outcome (Table V) :=
  right_sel ← getitem_rows right_table (index <$> index_table);
  matched ← hstack index_table left_table right_sel;
  matched ← table_sort matched;
  index ← getitem_key matched "index" (index_column m_key (m_rows matched));
  let good_match := good_match index in
  distance ← getitem_key matched "distance"
               (distance_column m_key (m_rows matched));
  let nearby := nearby max_separation distance in
  mask ← broadcast_mul good_match nearby;
  result_rows ← getitem_mask (m_rows matched) mask;
  let result := {| m_index_names := m_index_names matched;
                   m_left_names := m_left_names matched;
                   m_right_names := m_right_names matched;
                   m_rows := result_rows |} in
  Ok (del_index_distance result).

(** [coord.Angle('3 arcsec').degree]: three arc seconds in degrees, as the
    double the expression evaluates to, 3843071682022823 / 2^62.  It is the
    product of 3.0 and the double nearest to 1/3600, and lies just below
    3/3600. *)
Definition arcsec3_degree : Q := 3843071682022823 # 4611686018427387904.

(** [join_catalogs(index_table, left_table, right_table)]. *)
Definition join_catalogs (index_table : list Candidate)
    (left_table right_table : Table V) : outcome (Table V) :=
  join_catalogs_within arcsec3_degree index_table left_table right_table.
End Join.

(** ** The selection, row by row *)

Section Selection.
Context {A : Type} (key : A → Candidate).

(** The rows of [sorted[good_match * near]], read off row by row: a row is
    taken when its index differs from the index [prev] of the row before it
    and its own flag [near] is set. *)
Fixpoint pick (near : A → bool) (prev : option nat) (l : list A) : list A :=
  match l with
  | [] => []
  | x :: l' =>
      let rest := pick near (Some (index (key x))) l' in
      if negb (bool_decide (prev = Some (index (key x)))) && near x
      then x :: rest else rest
  end.

(** The rows of [matched[good_match * nearby]] of [join_catalogs]. *)
Definition selected (max_separation : Q) (rows : list A) : list A :=
  let sorted := sort_rows key rows in
  (filter (λ rb, snd rb = true)
     (zip sorted
        (zip_with andb (good_match (index_column key sorted))
           (nearby max_separation (distance_column key sorted))))).*1.

(** The rows of [matched[good_match]]: the selection before the cut-off. *)
Definition deduplicated (rows : list A) : list A :=
  let sorted := sort_rows key rows in
  (filter (λ rb, snd rb = true)
     (zip sorted (good_match (index_column key sorted)))).*1.
End Selection.

(** The candidates of [index_table] with their row numbers, which are the row
    numbers of [left_table] too. *)
Definition numbered (index_table : list Candidate) : list (Candidate * nat) :=
  zip index_table (seq 0 (length index_table)).

(** The selection of [join_catalogs] run on the numbered candidates: the
    winners of the deduplication, and the candidates that make a merged
    row. *)
Definition winners (index_table : list Candidate) : list (Candidate * nat) :=
  deduplicated fst (numbered index_table).

Definition kept (max_separation : Q) (index_table : list Candidate)
  : list (Candidate * nat) :=
  selected fst max_separation (numbered index_table).

(** A merged row built from row [p] of the left table and the row of the
    right table that [index_table] names at [p]. *)
Definition merged_from {V : Type} (index_table : list Candidate)
    (left_table right_table : Table V) (cp : Candidate * nat) (row : list V)
  : Prop :=
  index_table !! cp.2 = Some cp.1 ∧
  ∃ l r, rows left_table !! cp.2 = Some l ∧
         rows right_table !! index cp.1 = Some r ∧
         row = (l ++ r)%list.

(** The merged column names, or the exception the names cause. *)
Definition merged_colnames {V : Type} (left_table right_table : Table V)
  : outcome (list string) :=
  '(n1, n2, n3) ← hstack_colnames index_table_colnames
                    (colnames left_table) (colnames right_table);
  if bool_decide ("index" ∈ n1 ++ n2 ++ n3)
  then if bool_decide ("distance" ∈ n1 ++ n2 ++ n3)
       then Ok (n2 ++ n3) else Raise ValueError
  else Raise ValueError.

(** The row of [matched] made from a numbered candidate. *)
Definition matched_row {V : Type} (ls rs : list (list V)) (cp : Candidate * nat)
  : MatchedRow V :=
  {| m_key := cp.1;
     m_left := default [] (ls !! cp.2);
     m_right := default [] (rs !! cp.2) |}.

(** The image of a stack of sorted runs of [merge_sort]. *)
Definition stack_fmap {A B : Type} (f : B → A) (st : list (option (list B)))
  : list (option (list A)) :=
  (λ o : option (list B), (λ l : list B, f <$> l) <$> o) <$> st.


(** ** A small pair of catalogs

    Four stars of the b image and three of the y image.  Stars 0 and 2 of
    the b image both have star 1 of the y image as nearest neighbour, star 2
    being the closer one; star 3 lies five arc seconds from its nearest
    neighbour. *)

Definition b_catalog : Table string :=
  {| colnames := ["id"; "ra"; "dec"; "mag"];
     rows := [ ["b0"; "132.8101"; "11.8001"; "14.21"];
               ["b1"; "132.8202"; "11.8102"; "13.95"];
               ["b2"; "132.8100"; "11.8000"; "15.02"];
               ["b3"; "132.8313"; "11.8203"; "16.40"] ] |}.

Definition y_catalog : Table string :=
  {| colnames := ["id"; "ra"; "dec"; "mag"];
     rows := [ ["y0"; "132.8200"; "11.8100"; "13.61"];
               ["y1"; "132.8100"; "11.8000"; "14.77"];
               ["y2"; "132.8300"; "11.8200"; "16.02"] ] |}.

Definition pos_by : list Candidate :=
  [ {| index := 1; distance := 1 # 3600 |};
    {| index := 0; distance := 2 # 3600 |};
    {| index := 1; distance := 1 # 7200 |};
    {| index := 2; distance := 5 # 3600 |} ].

Definition phot_ins : Table string :=
  {| colnames := ["id_2"; "ra_2"; "dec_2"; "mag_2";
                  "id_3"; "ra_3"; "dec_3"; "mag_3"];
     rows := [ ["b1"; "132.8202"; "11.8102"; "13.95";
                "y0"; "132.8200"; "11.8100"; "13.61"];
               ["b2"; "132.8100"; "11.8000"; "15.02";
                "y1"; "132.8100"; "11.8000"; "14.77"] ] |}.

(** A star whose distance to its nearest neighbour is the cut-off of
    [join_catalogs] itself. *)
Definition edge_pos : list Candidate :=
  [ {| index := 0; distance := arcsec3_degree |} ].

Definition edge_catalog : Table string :=
  {| colnames := ["id"; "ra"; "dec"; "mag"];
     rows := [ ["b9"; "132.8200"; "11.8108"; "13.70"] ] |}.



(** ** Fields of a row, and the renaming loop of the caller *)

(** [row[name]]: the cell of [row] in the column called [name]. *)
Definition field {V : Type} (names : list string) (row : list V) (name : string)
  : option V :=
  ip ← list_find (λ n, n = name) names; row !! ip.1.

(** Python's [s.replace(old, new)] for a pattern [old] that is not empty:
    the occurrences of [old] are replaced from left to right, and the
    characters of a replaced occurrence are skipped. *)
Fixpoint replace_from (old new : string) (skip : nat) (s : string) : string :=
  match s with
  | EmptyString => EmptyString
  | String ch s' =>
      match skip with
      | S k => replace_from old new k s'
      | O => if String.prefix old s
             then new +:+ replace_from old new (String.length old - 1) s'
             else String ch (replace_from old new 0 s')
      end
  end.

Definition str_replace (old new s : string) : string := replace_from old new 0 s.

(** [col.replace('_2', '_b').replace('_3', '_y')] *)
Definition new_name (col : string) : string :=
  str_replace "_3" "_y" (str_replace "_2" "_b" col).

(** [Table.rename_column(name, new_name)] on the column names: [KeyError]
    when there is no column [name], nothing to do when the two names are the
    same, [KeyError] when a column [new_name] exists already. *)
Definition rename_column (names : list string) (name new : string)
  : outcome (list string) :=
  if bool_decide (name ∈ names)
  then if bool_decide (name = new) then Ok names
       else if bool_decide (new ∈ names) then Raise KeyError
       else Ok ((λ n, if bool_decide (n = name) then new else n) <$> names)
  else Raise KeyError.

(** [for col in phot_ins.colnames: phot_ins.rename_column(col, new_name)],
    the loop running over the names the table had when it started. *)
Fixpoint tidy_loop (cols names : list string) : outcome (list string) :=
  match cols with
  | [] => Ok names
  | col :: cols' =>
      names' ← rename_column names col (new_name col);
      tidy_loop cols' names'
  end.

Definition tidy_column_names {V : Type} (t : Table V) : outcome (Table V) :=
  names ← tidy_loop (colnames t) (colnames t);
  Ok {| colnames := names; rows := rows t |}.

(** What a merged row [row], made of the left row [l] and the right row [r],
    shows of the two: every field of [l] and every field of [r] is a field
    of [row] under the name [hstack] gave it, and a name the two tables share
    gives two fields of [row], with the suffixes [_2] and [_3]. *)
Definition exposes_both {V : Type} (ltab rtab res : Table V)
    (l r row : list V) : Prop :=
  (∀ name, name ∈ colnames ltab →
     is_Some (field (colnames ltab) l name)
     ∧ field (colnames res) row
         (out_name [index_table_colnames; colnames rtab] "2" name)
       = field (colnames ltab) l name)
  ∧ (∀ name, name ∈ colnames rtab →
       is_Some (field (colnames rtab) r name)
       ∧ field (colnames res) row
           (out_name [index_table_colnames; colnames ltab] "3" name)
         = field (colnames rtab) r name)
  ∧ (∀ name, name ∈ colnames ltab → name ∈ colnames rtab →
       uniq_col_name name "2" ≠ uniq_col_name name "3"
       ∧ field (colnames res) row (uniq_col_name name "2")
         = field (colnames ltab) l name
       ∧ field (colnames res) row (uniq_col_name name "3")
         = field (colnames rtab) r name).

(** The merged catalog of the small example after the renaming loop. *)
Definition phot_ins_tidy : Table string :=
  {| colnames := ["id_b"; "ra_b"; "dec_b"; "mag_b";
                  "id_y"; "ra_y"; "dec_y"; "mag_y"];
     rows := rows phot_ins |}.

(** ** The tables as Python objects

    The tables of the notebook are objects, reached through references;
    [matched.sort] and [del result[...]] change the object they are called
    on.  An object lives in a store at its reference; the operations of
    astropy that make a table ([right_table[...]] with an index array,
    [table.hstack], [matched[...]] with a boolean mask) copy the cells and
    put a new object in the store. *)

Section Store.
Context {V : Type}.

Inductive object : Type :=
| OIndexTable (t : list Candidate)
| OTable (t : Table V)
| OMatched (m : Matched V).

(** The objects alive, each at its reference. *)
Definition heap : Type := list object.

(** A computation on the store. *)
Definition Py (A : Type) : Type := heap → outcome A * heap.

#[global] Instance py_ret : MRet Py := λ A a h, (Ok a, h).
#[global] Instance py_bind : MBind Py := λ A B f m h,
  match m h with
  | (Ok a, h') => f a h'
  | (Raise e, h') => (Raise e, h')
  | (MaskedPadding, h') => (MaskedPadding, h')
  end.

(** A step that does not touch the store. *)
Definition lift {A : Type} (x : outcome A) : Py A := λ h, (x, h).

(** A new object; its reference is returned. *)
Definition new (o : object) : Py nat := λ h, (Ok (length h), h ++ [o]).

Definition load (l : nat) : Py object := λ h,
  (match h !! l with Some o => Ok o | None => Raise TypeError end, h).

(** The object at [l] is replaced: every holder of [l] sees the change. *)
Definition store (l : nat) (o : object) : Py unit :=
  λ h : list object, (Ok (), <[l := o]> h).

Definition load_index_table (l : nat) : Py (list Candidate) :=
  o ← load l;
  match o with OIndexTable t => mret t | _ => lift (Raise TypeError) end.

Definition load_table (l : nat) : Py (Table V) :=
  o ← load l;
  match o with OTable t => mret t | _ => lift (Raise TypeError) end.

Definition load_matched (l : nat) : Py (Matched V) :=
  o ← load l;
  match o with OMatched m => mret m | _ => lift (Raise TypeError) end.

(** [index_table['index']] *)
Definition index_py (index_table : nat) : Py (list nat) :=
  it ← load_index_table index_table; mret (index <$> it).

(** [t[idx]] for an array of row numbers: a new table. *)
Definition getitem_rows_py (t : nat) (idx : list nat) : Py nat :=
  tv ← load_table t;
  sel ← lift (getitem_rows tv idx);
  new (OTable sel).

(** [table.hstack([a, b, c])]: a new table. *)
Definition hstack_py (a b c : nat) : Py nat :=
  it ← load_index_table a;
  ltv ← load_table b;
  rsv ← load_table c;
  m ← lift (hstack it ltv rsv);
  new (OMatched m).

(** [matched.sort(['index', 'distance'])]: the table itself is sorted. *)
Definition sort_py (matched : nat) : Py unit :=
  m ← load_matched matched;
  m' ← lift (table_sort m);
  store matched (OMatched m').

(** [matched["index"]] and [matched['distance']] *)
Definition getitem_index_py (matched : nat) : Py (list nat) :=
  m ← load_matched matched;
  lift (getitem_key m "index" (index_column m_key (m_rows m))).

Definition getitem_distance_py (matched : nat) : Py (list Q) :=
  m ← load_matched matched;
  lift (getitem_key m "distance" (distance_column m_key (m_rows m))).

(** [matched[mask]]: a new table. *)
Definition getitem_mask_py (matched : nat) (mask : list bool) : Py nat :=
  m ← load_matched matched;
  result_rows ← lift (getitem_mask (m_rows m) mask);
  new (OMatched {| m_index_names := m_index_names m;
                   m_left_names := m_left_names m;
                   m_right_names := m_right_names m;
                   m_rows := result_rows |}).

(** [del result['index', 'distance']]: the table itself loses the columns. *)
Definition del_index_distance_py (result : nat) : Py unit :=
  m ← load_matched result;
  store result (OTable (del_index_distance m)).

(** [join_catalogs] on references, statement by statement. *)
Definition join_catalogs_py (max_separation : Q)
    (index_table left_table right_table : nat) : Py nat :=
  idx ← index_py index_table;
  right_sel ← getitem_rows_py right_table idx;
  matched ← hstack_py index_table left_table right_sel;
  _ ← sort_py matched;
  index ← getitem_index_py matched;
  let good_match := good_match index in
  distance ← getitem_distance_py matched;
  let nearby := nearby max_separation distance in
  mask ← lift (broadcast_mul good_match nearby);
  result ← getitem_mask_py matched mask;
  _ ← del_index_distance_py result;
  mret result.
End Store.

Arguments object V : clear implicits.
Arguments heap V : clear implicits.

(** The store of the notebook before the first call of [join_catalogs]. *)
Definition notebook_heap : heap string :=
  [OTable b_catalog; OTable y_catalog; OIndexTable pos_by].

(** Whether a name contains an underscore: the names [hstack] makes up do. *)
Fixpoint has_underscore (s : string) : bool :=
  match s with
  | EmptyString => false
  | String ch s' => bool_decide (ch = "_"%char) || has_underscore s'
  end.

(** The names [hstack] gives to the columns of the left and of the right
    table. *)
Definition left_out_names {V : Type} (ltab rtab : Table V) : list string :=
  out_name [index_table_colnames; colnames rtab] "2" <$> colnames ltab.

Definition right_out_names {V : Type} (ltab rtab : Table V) : list string :=
  out_name [index_table_colnames; colnames ltab] "3" <$> colnames rtab.

(** The two key names are column names of neither table. *)
Definition keys_free {V : Type} (ltab rtab : Table V) : Prop :=
  Forall (λ key, (key ∉ colnames ltab) ∧ (key ∉ colnames rtab))
    index_table_colnames.

(** ** The cells around [join_catalogs] *)

Section Cells.
Context {V : Type} `{!EqDecision V}.

(** [t[name]]: the cells of the column called [name], [KeyError] when there
    is no such column.  A row short of a cell gives [IndexError]; the rows
    of a table of astropy never are. *)
Definition getitem_column (t : Table V) (name : string) : outcome (list V) :=
  match list_find (λ n, n = name) (colnames t) with
  | None => Raise KeyError
  | Some (i, _) =>
      match mapM (λ row : list V, row !! i) (rows t) with
      | Some col => Ok col
      | None => Raise IndexError
      end
  end.

(** [t[t[name] == value]]: the rows whose cell in column [name] is
    [value], as in [read_catalog[read_catalog['valid'] == 'True']] and
    [catalog[catalog['Filename'] == b_image]]. *)
Definition select_eq (t : Table V) (name : string) (value : V)
  : outcome (Table V) :=
  col ← getitem_column t name;
  let mask := (λ v, bool_decide (v = value)) <$> col in
  sel ← getitem_mask (rows t) mask;
  Ok {| colnames := colnames t; rows := sel |}.

(** [t[name] = col]: the cells of the column called [name] are replaced
    when there is one; otherwise the column is added after the others.
    astropy raises [ValueError] when [col] has not one cell per row, unless
    the table has no column yet. *)
Definition setitem_column (t : Table V) (name : string) (col : list V)
  : outcome (Table V) :=
  match colnames t with
  | [] => Ok {| colnames := [name]; rows := (λ v, [v]) <$> col |}
  | _ =>
      if bool_decide (length col = length (rows t))
      then match list_find (λ n, n = name) (colnames t) with
           | Some (i, _) =>
               Ok {| colnames := colnames t;
                     rows := zip_with (λ row v, <[i := v]> row) (rows t) col |}
           | None =>
               Ok {| colnames := colnames t ++ [name];
                     rows := zip_with (λ row v, row ++ [v]) (rows t) col |}
           end
      else Raise ValueError
  end.

(** [phot_ins['mag_b-y'] = phot_ins['mag_b'] - phot_ins['mag_y']], for the
    subtraction [sub] of the cells. *)
Definition colour_column (sub : V → V → V) (phot_ins : Table V)
  : outcome (Table V) :=
  mag_b ← getitem_column phot_ins "mag_b";
  mag_y ← getitem_column phot_ins "mag_y";
  setitem_column phot_ins "mag_b-y" (zip_with sub mag_b mag_y).

(** The cell of the notebook that makes [phot_ins]: the call of
    [join_catalogs], the renaming loop and the colour. *)
Definition phot_ins_cell (sub : V → V → V) (pos_by : list Candidate)
    (b_catalog y_catalog : Table V) : outcome (Table V) :=
  phot_ins ← join_catalogs pos_by b_catalog y_catalog;
  phot_ins ← tidy_column_names phot_ins;
  colour_column sub phot_ins.
End Cells.

(** Whether [s] has the character [a] followed at once by [b]. *)
Fixpoint has_pair (a b : ascii) (s : string) : bool :=
  match s with
  | EmptyString => false
  | String ch s' =>
      match s' with
      | EmptyString => false
      | String ch' _ =>
          (bool_decide (ch = a) && bool_decide (ch' = b)) || has_pair a b s'
      end
  end.

(** A difference of cells that are texts, written out. *)
Definition written_sub (x y : string) : string := x +:+ " - " +:+ y.

(** The catalog the notebook reads, before the stars of the two images are
    told apart: the stars of [b_catalog] and [y_catalog] with their file
    names, and one star that is not valid. *)
Definition read_catalog : Table string :=
  {| colnames := ["Filename"; "valid"; "mag"];
     rows := [ ["bfa_m67_b_1.fit"; "True"; "14.21"];
               ["bfa_m67_y_1.fit"; "True"; "13.61"];
               ["bfa_m67_b_1.fit"; "False"; "19.90"];
               ["bfa_m67_b_1.fit"; "True"; "13.95"];
               ["bfa_m67_y_2.fit"; "True"; "13.60"] ] |}.

(** The text made of the two characters [a] and [b]. *)
Definition two_chars (a b : ascii) : string := String a (String b EmptyString).

(** The row of [matched] made from a candidate and its left row: the right
    row is the row of the right table the candidate names. *)
Definition paired_row {V : Type} (right_table : Table V)
    (cl : Candidate * list V) : MatchedRow V :=
  {| m_key := cl.1;
     m_left := cl.2;
     m_right := default [] (rows right_table !! index cl.1) |}.

(** ** More small catalogs *)

(** Three stars of the b image, each the only one to name its nearest
    neighbour, all within three arc seconds. *)
Definition b_three : Table string :=
  {| colnames := ["id"; "ra"; "dec"; "mag"];
     rows := [ ["b1"; "132.8202"; "11.8102"; "13.95"];
               ["b2"; "132.8100"; "11.8000"; "15.02"];
               ["b4"; "132.8301"; "11.8201"; "16.11"] ] |}.

Definition pos_three : list Candidate :=
  [ {| index := 0; distance := 2 # 3600 |};
    {| index := 1; distance := 1 # 7200 |};
    {| index := 2; distance := 1 # 3600 |} ].

(** An index table that names a fourth star of the y image, which has
    three. *)
Definition pos_three_beyond : list Candidate :=
  [ {| index := 0; distance := 2 # 3600 |};
    {| index := 3; distance := 1 # 7200 |};
    {| index := 2; distance := 1 # 3600 |} ].

(** The b catalog and its index table with the stars in reverse order. *)
Definition b_catalog_rev : Table string :=
  {| colnames := colnames b_catalog; rows := reverse (rows b_catalog) |}.

Definition pos_by_rev : list Candidate := reverse pos_by.

(** [phot_ins] with its colour, as the cell of the notebook leaves it. *)
Definition phot_ins_colour : Table string :=
  {| colnames := ["id_b"; "ra_b"; "dec_b"; "mag_b";
                  "id_y"; "ra_y"; "dec_y"; "mag_y"; "mag_b-y"];
     rows := [ ["b1"; "132.8202"; "11.8102"; "13.95";
                "y0"; "132.8200"; "11.8100"; "13.61"; "13.95 - 13.61"];
               ["b2"; "132.8100"; "11.8000"; "15.02";
                "y1"; "132.8100"; "11.8000"; "14.77"; "15.02 - 14.77"] ] |}.

(** A catalog of standard stars and its index table into
    [phot_ins_colour], for the second call of [join_catalogs]. *)
Definition phot_std : Table string :=
  {| colnames := ["Seq"; "RAJ2000"; "DEJ2000"; "b-y"];
     rows := [ ["17"; "08 51 14.4"; "+11 48 00"; "0.412"];
               ["42"; "08 51 16.8"; "+11 48 37"; "0.385"] ] |}.

Definition pos_std_ins : list Candidate :=
  [ {| index := 1; distance := 1 # 9000 |};
    {| index := 0; distance := 1 # 4500 |} ].

Definition phot_std_ins : Table string :=
  {| colnames := ["Seq"; "RAJ2000"; "DEJ2000"; "b-y";
                  "id_b"; "ra_b"; "dec_b"; "mag_b";
                  "id_y"; "ra_y"; "dec_y"; "mag_y"; "mag_b-y"];
     rows := [ ["42"; "08 51 16.8"; "+11 48 37"; "0.385";
                "b1"; "132.8202"; "11.8102"; "13.95";
                "y0"; "132.8200"; "11.8100"; "13.61"; "13.95 - 13.61"];
               ["17"; "08 51 14.4"; "+11 48 00"; "0.412";
                "b2"; "132.8100"; "11.8000"; "15.02";
                "y1"; "132.8100"; "11.8000"; "14.77"; "15.02 - 14.77"] ] |}.

(** The stars of the first b image and of the first y image in
    [read_catalog]. *)
Definition read_b : Table string :=
  {| colnames := colnames read_catalog;
     rows := [ ["bfa_m67_b_1.fit"; "True"; "14.21"];
               ["bfa_m67_b_1.fit"; "False"; "19.90"];
               ["bfa_m67_b_1.fit"; "True"; "13.95"] ] |}.

Definition read_y : Table string :=
  {| colnames := colnames read_catalog;
     rows := [ ["bfa_m67_y_1.fit"; "True"; "13.61"] ] |}.
(** ** Facts on the comparisons *)

Lemma Qltb_lt (x y : Q) : Qltb x y = true ↔ (x < y)%Q.
Proof.
  unfold Qltb. rewrite negb_true_iff. split.
  - intros H. apply Qnot_le_lt. intros Hle.
    apply Qle_bool_iff in Hle. congruence.
  - intros H. destruct (Qle_bool y x) eqn:E; [|done].
    apply Qle_bool_iff in E. lra.
Qed.

Lemma Qltb_ge (x y : Q) : Qltb x y = false ↔ (y <= x)%Q.
Proof.
  rewrite <- not_true_iff_false, Qltb_lt. split; intros H; lra.
Qed.

Lemma key_le_spec (a b : Candidate) :
  key_le a b ↔
  index a < index b ∨ (index a = index b ∧ (distance a <= distance b)%Q).
Proof.
  unfold key_le, key_leb.
  rewrite orb_true_iff, andb_true_iff, Nat.ltb_lt, Nat.eqb_eq, Qle_bool_iff.
  tauto.
Qed.

#[global] Instance key_le_total : Total key_le.
Proof.
  intros a b. rewrite !key_le_spec.
  destruct (lt_eq_lt_dec (index a) (index b)) as [[?|?]|?]; [lia| |lia].
  destruct (Qlt_le_dec (distance b) (distance a)); [right|left]; right;
    (split; [lia|lra]).
Qed.

#[global] Instance key_le_trans : Transitive key_le.
Proof.
  intros a b c. rewrite !key_le_spec.
  intros [?|[? ?]] [?|[? ?]]; [lia|lia|lia|].
  right. split; [lia|lra].
Qed.

Section RowFacts.
Context {A : Type} (key : A → Candidate).

#[global] Instance row_le_total : Total (row_le key).
Proof. intros x y. apply key_le_total. Qed.

#[global] Instance row_le_trans : Transitive (row_le key).
Proof. intros x y z. apply key_le_trans. Qed.

Lemma sort_rows_sorted (l : list A) : StronglySorted (row_le key) (sort_rows key l).
Proof. apply StronglySorted_merge_sort; apply _. Qed.

Lemma sort_rows_perm (l : list A) : sort_rows key l ≡ₚ l.
Proof. apply merge_sort_Permutation. Qed.

Lemma sort_rows_length (l : list A) : length (sort_rows key l) = length l.
Proof. apply Permutation_length, sort_rows_perm. Qed.
End RowFacts.

(** Sorting commutes with a change of row shape that keeps the keys. *)
Section SortNatural.
Context {A B : Type} (key : A → Candidate) (f : B → A).

Lemma list_merge_fmap (l1 l2 : list B) :
  list_merge (row_le key) (f <$> l1) (f <$> l2)
  = f <$> list_merge (row_le (key ∘ f)) l1 l2.
Proof.
  revert l2. induction l1 as [|x1 l1 IH1]; intros l2.
  - by rewrite fmap_nil, !list_merge_nil_l.
  - induction l2 as [|x2 l2 IH2].
    + by rewrite fmap_nil, !list_merge_nil_r.
    + rewrite !fmap_cons, !list_merge_cons.
      change (decide (row_le (key ∘ f) x1 x2))
        with (decide (row_le key (f x1) (f x2))).
      destruct (decide (row_le key (f x1) (f x2))).
      * rewrite fmap_cons. f_equal. rewrite <- IH1. by rewrite fmap_cons.
      * rewrite fmap_cons. f_equal. rewrite <- IH2. by rewrite fmap_cons.
Qed.

Lemma merge_list_to_stack_fmap (st : list (option (list B))) (l : list B) :
  merge_list_to_stack (row_le key) (stack_fmap f st) (f <$> l)
  = stack_fmap f (merge_list_to_stack (row_le (key ∘ f)) st l).
Proof.
  revert l. induction st as [|[l'|] st IH]; intros l; [done| |done].
  change (None :: merge_list_to_stack (row_le key) (stack_fmap f st)
                    (list_merge (row_le key) (f <$> l') (f <$> l))
          = None :: stack_fmap f
                      (merge_list_to_stack (row_le (key ∘ f)) st
                         (list_merge (row_le (key ∘ f)) l' l))).
  by rewrite list_merge_fmap, IH.
Qed.

Lemma merge_stack_fmap (st : list (option (list B))) :
  merge_stack (row_le key) (stack_fmap f st)
  = f <$> merge_stack (row_le (key ∘ f)) st.
Proof.
  induction st as [|[l'|] st IH]; [done| |exact IH].
  change (list_merge (row_le key) (f <$> l')
            (merge_stack (row_le key) (stack_fmap f st))
          = f <$> list_merge (row_le (key ∘ f)) l'
                    (merge_stack (row_le (key ∘ f)) st)).
  by rewrite IH, list_merge_fmap.
Qed.

Lemma merge_sort_aux_fmap (st : list (option (list B))) (l : list B) :
  merge_sort_aux (row_le key) (stack_fmap f st) (f <$> l)
  = f <$> merge_sort_aux (row_le (key ∘ f)) st l.
Proof.
  revert st. induction l as [|x l IH]; intros st.
  - apply merge_stack_fmap.
  - change (merge_sort_aux (row_le key)
              (merge_list_to_stack (row_le key) (stack_fmap f st) (f <$> [x]))
              (f <$> l)
            = f <$> merge_sort_aux (row_le (key ∘ f))
                      (merge_list_to_stack (row_le (key ∘ f)) st [x]) l).
    by rewrite merge_list_to_stack_fmap, IH.
Qed.

Lemma sort_rows_fmap (l : list B) :
  sort_rows key (f <$> l) = f <$> sort_rows (key ∘ f) l.
Proof. apply (merge_sort_aux_fmap [] l). Qed.
End SortNatural.

(** ** The masks select the rows [pick] describes *)

Lemma masked_cons {A : Type} (x : A) (b : bool) (l : list (A * bool)) :
  (filter (λ rb : A * bool, rb.2 = true) ((x, b) :: l)).*1
  = if b then x :: (filter (λ rb : A * bool, rb.2 = true) l).*1
    else (filter (λ rb : A * bool, rb.2 = true) l).*1.
Proof. rewrite filter_cons. destruct b; cbn; case_decide; done. Qed.

Lemma some_eqb (i j : nat) :
  bool_decide (Some i = Some j) = (i =? j)%nat.
Proof.
  destruct (Nat.eqb_spec i j) as [->|Hne].
  - by rewrite bool_decide_eq_true_2.
  - rewrite bool_decide_eq_false_2; [done|congruence].
Qed.

Section PickFacts.
Context {A : Type} (key : A → Candidate).

Lemma mask_pick_from (near : A → bool) (i : nat) (l : list A) :
  (filter (λ rb : A * bool, rb.2 = true)
     (zip l (zip_with andb
               (zip_with (λ star oldstar, negb (star =? oldstar)%nat)
                  (i :: index_column key l) (index_column key l))
               (near <$> l)))).*1
  = pick key near (Some i) l.
Proof.
  revert i. induction l as [|x l IH]; intros i; [done|].
  cbn [index_column fmap list_fmap zip_with pick compose zip].
  rewrite masked_cons, some_eqb.
  specialize (IH (index (key x))).
  destruct (negb (i =? index (key x))%nat && near x); [f_equal|]; exact IH.
Qed.

Lemma mask_pick (near : A → bool) (l : list A) :
  (filter (λ rb : A * bool, rb.2 = true)
     (zip l (zip_with andb (good_match (index_column key l)) (near <$> l)))).*1
  = pick key near None l.
Proof.
  destruct l as [|x l]; [done|].
  unfold good_match.
  cbn [index_column fmap list_fmap zip_with pick compose zip tail].
  rewrite masked_cons.
  pose proof (mask_pick_from near (index (key x)) l) as IH.
  rewrite bool_decide_eq_false_2 by done. cbn [negb andb].
  destruct (near x); [f_equal|]; exact IH.
Qed.

Lemma good_match_length (l : list nat) :
  length (good_match l) = Nat.max 1 (length l).
Proof.
  unfold good_match. cbn [length]. rewrite length_zip_with.
  destruct l as [|x l]; [done|]. cbn [tail length]. lia.
Qed.

(** The selection is [pick] on the sorted rows. *)
Lemma selected_pick (c : Q) (l : list A) :
  selected key c l
  = pick key (λ x, Qltb (distance (key x)) c) None (sort_rows key l).
Proof.
  unfold selected, nearby, distance_column.
  rewrite <- mask_pick. by rewrite <- list_fmap_compose.
Qed.

Lemma deduplicated_pick (l : list A) :
  deduplicated key l = pick key (λ _, true) None (sort_rows key l).
Proof.
  unfold deduplicated. rewrite <- mask_pick. do 2 f_equal.
  set (s := sort_rows key l). clearbody s.
  generalize (good_match (index_column key s)). clear.
  induction s as [|x s IH]; intros [|b g]; try done.
  cbn. rewrite andb_true_r. f_equal. apply IH.
Qed.

(** The cut-off filters the winners of the deduplication. *)
Lemma pick_filter (near : A → bool) (prev : option nat) (l : list A) :
  pick key near prev l
  = filter (λ x, near x = true) (pick key (λ _, true) prev l).
Proof.
  revert prev. induction l as [|x l IH]; intros prev; [done|].
  cbn [pick]. rewrite andb_true_r.
  destruct (negb (bool_decide (prev = Some (index (key x))))); cbn [andb].
  - rewrite filter_cons. rewrite <- IH.
    destruct (near x); case_decide; done.
  - apply IH.
Qed.

Lemma pick_sublist (near : A → bool) (prev : option nat) (l : list A) :
  pick key near prev l `sublist_of` l.
Proof.
  revert prev. induction l as [|x l IH]; intros prev; [done|].
  cbn [pick].
  destruct (negb (bool_decide (prev = Some (index (key x)))) && near x).
  - apply sublist_skip, IH.
  - apply sublist_cons, IH.
Qed.

Lemma pick_elem_of (near : A → bool) (prev : option nat) (l : list A) (x : A) :
  x ∈ pick key near prev l → x ∈ l.
Proof. intros Hx. eapply elem_of_sublist; [exact Hx|apply pick_sublist]. Qed.

Lemma row_le_index (x y : A) : row_le key x y → index (key x) ≤ index (key y).
Proof. unfold row_le. rewrite key_le_spec. lia. Qed.

Lemma row_le_distance (x y : A) :
  row_le key x y → index (key x) = index (key y) →
  (distance (key x) <= distance (key y))%Q.
Proof. unfold row_le. rewrite key_le_spec. intros [?|[_ ?]] ?; [lia|done]. Qed.

(** On sorted rows, the rows picked after a row of index [i] have a larger
    index. *)
Lemma pick_above (near : A → bool) (i : nat) (l : list A) :
  StronglySorted (row_le key) l →
  Forall (λ y, i ≤ index (key y)) l →
  Forall (λ z, i < index (key z)) (pick key near (Some i) l).
Proof.
  intros Hs. revert i. induction Hs as [|x l Hs IH Hx]; intros i Hl;
    [constructor|].
  apply Forall_cons in Hl as [Hix Hl].
  assert (Forall (λ z, i < index (key z))
            (pick key near (Some (index (key x))) l)) as Hrest.
  { eapply Forall_impl.
    - apply IH. eapply Forall_impl; [apply Hx|].
      intros y Hy. by apply row_le_index.
    - cbn beta. intros z Hz. lia. }
  cbn [pick]. rewrite some_eqb.
  destruct (Nat.eqb_spec i (index (key x))) as [->|Hne]; cbn [negb andb];
    [exact Hrest|].
  destruct (near x); [|exact Hrest].
  constructor; [lia|exact Hrest].
Qed.

(** On sorted rows, the picked rows have strictly ascending indices. *)
Lemma pick_ascending (near : A → bool) (prev : option nat) (l : list A) :
  StronglySorted (row_le key) l →
  StronglySorted lt (index_column key (pick key near prev l)).
Proof.
  intros Hs. revert prev. induction Hs as [|x l Hs IH Hx]; intros prev;
    [constructor|].
  cbn [pick].
  destruct (negb (bool_decide (prev = Some (index (key x)))) && near x);
    [|apply IH].
  unfold index_column. rewrite fmap_cons. constructor; [apply IH|].
  apply Forall_fmap.
  apply (pick_above near (index (key x)) l Hs).
  eapply Forall_impl; [apply Hx|]. intros y Hy. by apply row_le_index.
Qed.

(** On sorted rows, every index that occurs has a picked row, and that row
    is at least as close as any row of the same index. *)
Lemma pick_first (prev : option nat) (l : list A) (y : A) :
  StronglySorted (row_le key) l →
  y ∈ l → prev ≠ Some (index (key y)) →
  ∃ z, z ∈ pick key (λ _, true) prev l
       ∧ index (key z) = index (key y)
       ∧ (distance (key z) <= distance (key y))%Q.
Proof.
  intros Hs. revert prev. induction Hs as [|x l Hs IH Hx]; intros prev Hy Hp.
  - by apply elem_of_nil in Hy.
  - cbn [pick]. rewrite andb_true_r.
    destruct (decide (index (key x) = index (key y))) as [Heq|Hne].
    + rewrite bool_decide_eq_false_2 by congruence. cbn [negb].
      exists x. split; [apply list_elem_of_here|]. split; [done|].
      apply elem_of_cons in Hy as [->|Hy]; [lra|].
      apply row_le_distance; [|done].
      rewrite Forall_forall in Hx. by apply Hx.
    + apply elem_of_cons in Hy as [->|Hy]; [done|].
      destruct (IH (Some (index (key x))) Hy) as (z & Hz & Hzy);
        [congruence|].
      exists z. split; [|done].
      destruct (negb (bool_decide (prev = Some (index (key x)))));
        [by apply list_elem_of_further|done].
Qed.

(** Two picked rows of the same index are the same row. *)
Lemma pick_unique (near : A → bool) (prev : option nat) (l : list A) (z z' : A) :
  StronglySorted (row_le key) l →
  z ∈ pick key near prev l → z' ∈ pick key near prev l →
  index (key z) = index (key z') → z = z'.
Proof.
  intros Hs Hz Hz' Heq.
  pose proof (pick_ascending near prev l Hs) as Hasc.
  assert (NoDup (index_column key (pick key near prev l))) as Hnd.
  { clear -Hasc. induction Hasc as [|i s Hs IH Hi]; constructor; [|done].
    intros Hin. rewrite Forall_forall in Hi. specialize (Hi _ Hin). lia. }
  apply list_elem_of_lookup in Hz as [i Hi].
  apply list_elem_of_lookup in Hz' as [j Hj].
  assert (i = j) as ->; [|congruence].
  eapply NoDup_lookup; [exact Hnd| |].
  - unfold index_column. rewrite list_lookup_fmap, Hi. reflexivity.
  - unfold index_column. rewrite list_lookup_fmap, Hj. cbn. by rewrite Heq.
Qed.
End PickFacts.

(** ** Changing the shape of the rows *)

Section SelectionNatural.
Context {A B : Type} (key : A → Candidate) (f : B → A).

Lemma pick_fmap (near : A → bool) (prev : option nat) (l : list B) :
  pick key near prev (f <$> l) = f <$> pick (key ∘ f) (near ∘ f) prev l.
Proof.
  revert prev. induction l as [|x l IH]; intros prev; [done|].
  rewrite fmap_cons. cbn [pick compose].
  destruct (negb (bool_decide (prev = Some (index (key (f x))))) && near (f x)).
  - rewrite fmap_cons. f_equal. apply IH.
  - apply IH.
Qed.

Lemma selected_fmap (c : Q) (l : list B) :
  selected key c (f <$> l) = f <$> selected (key ∘ f) c l.
Proof. by rewrite !selected_pick, sort_rows_fmap, pick_fmap. Qed.
End SelectionNatural.

(** ** The numbered candidates *)

Lemma zip_seq_lookup {A : Type} (l : list A) (s i : nat) :
  zip l (seq s (length l)) !! i = (λ c, (c, s + i)) <$> l !! i.
Proof.
  revert s i. induction l as [|x l IH]; intros s [|i]; cbn; try done.
  - do 3 f_equal. lia.
  - rewrite IH. destruct (l !! i); cbn; [|done]. do 3 f_equal. lia.
Qed.

Lemma numbered_lookup (it : list Candidate) (i : nat) :
  numbered it !! i = (λ c, (c, i)) <$> it !! i.
Proof. apply (zip_seq_lookup it 0 i). Qed.

Lemma elem_of_numbered (it : list Candidate) (cp : Candidate * nat) :
  cp ∈ numbered it ↔ it !! cp.2 = Some cp.1.
Proof.
  rewrite list_elem_of_lookup. split.
  - intros [i Hi]. rewrite numbered_lookup in Hi.
    destruct (it !! i) eqn:E; cbn in Hi; [|done].
    injection Hi as <-. done.
  - intros H. exists cp.2. rewrite numbered_lookup, H. by destruct cp.
Qed.

Lemma numbered_length (it : list Candidate) : length (numbered it) = length it.
Proof. unfold numbered. rewrite length_zip, length_seq. lia. Qed.

Lemma elem_of_kept_numbered (c : Q) (it : list Candidate) (cp : Candidate * nat) :
  cp ∈ kept c it → cp ∈ numbered it.
Proof.
  unfold kept. rewrite selected_pick. intros H.
  apply pick_elem_of in H. by rewrite sort_rows_perm in H.
Qed.

Lemma elem_of_winners_numbered (it : list Candidate) (cp : Candidate * nat) :
  cp ∈ winners it → cp ∈ numbered it.
Proof.
  unfold winners. rewrite deduplicated_pick. intros H.
  apply pick_elem_of in H. by rewrite sort_rows_perm in H.
Qed.

(** The candidates that make a merged row are the winners within the
    cut-off, in the same order. *)
Lemma kept_winners (c : Q) (it : list Candidate) :
  kept c it = filter (λ cp, Qltb (distance cp.1) c = true) (winners it).
Proof.
  unfold kept, winners. rewrite selected_pick, deduplicated_pick.
  apply pick_filter.
Qed.

(** ** Normal form of [join_catalogs] *)

Lemma broadcast_mul_masks (c : Q) (idx : list nat) (d : list Q) :
  length idx = length d →
  broadcast_mul (good_match idx) (nearby c d)
  = Ok (zip_with andb (good_match idx) (nearby c d)).
Proof.
  intros Hlen. unfold broadcast_mul.
  destruct (Nat.eqb_spec (length (good_match idx)) (length (nearby c d)))
    as [|Hne]; [done|].
  rewrite good_match_length in Hne. unfold nearby in Hne.
  rewrite length_fmap in Hne.
  destruct idx as [|i idx], d as [|q d]; cbn in *; try done; lia.
Qed.

Lemma getitem_mask_masks {A : Type} (key : A → Candidate) (c : Q) (l : list A) :
  getitem_mask l
    (zip_with andb (good_match (index_column key l))
       (nearby c (distance_column key l)))
  = Ok (filter (λ rb : A * bool, rb.2 = true)
          (zip l (zip_with andb (good_match (index_column key l))
                    (nearby c (distance_column key l))))).*1.
Proof.
  unfold getitem_mask.
  rewrite length_zip_with, good_match_length.
  unfold nearby, index_column, distance_column. rewrite !length_fmap.
  destruct (Nat.eqb_spec (Nat.max 1 (length l) `min` length l) (length l));
    [done|lia].
Qed.

Section JoinFacts.
Context {V : Type}.

Lemma join_catalogs_within_unfold (c : Q) (it : list Candidate)
    (lt rt : Table V) :
  join_catalogs_within c it lt rt =
    right_sel ← getitem_rows rt (index <$> it);
    '(n1, n2, n3) ← hstack_colnames index_table_colnames
                      (colnames lt) (colnames rt);
    if (length it =? length (rows lt)) && (length it =? length (rows right_sel))
    then names ← merged_colnames lt rt;
         Ok {| colnames := names;
               rows := (λ r, m_left r ++ m_right r)
                         <$> selected m_key c
                               (zip_rows it (rows lt) (rows right_sel)) |}
    else MaskedPadding.
Proof.
  unfold join_catalogs_within, getitem_rows, merged_colnames.
  destruct (mapM (λ i, rows rt !! i) (index <$> it)) as [rs|]; [|done].
  cbn [mbind outcome_bind colnames rows]. unfold hstack.
  cbn [colnames rows].
  destruct (hstack_colnames index_table_colnames (colnames lt) (colnames rt))
    as [[[n1 n2] n3]| |]; [|done|done].
  cbn [mbind outcome_bind].
  destruct ((length it =? length (rows lt)) && (length it =? length rs));
    [|done].
  unfold table_sort, getitem_key, m_colnames.
  cbn [mbind outcome_bind m_index_names m_left_names m_right_names m_rows].
  destruct (bool_decide ("index" ∈ n1 ++ n2 ++ n3)) eqn:Ei; [|done].
  destruct (bool_decide ("distance" ∈ n1 ++ n2 ++ n3)) eqn:Ed; [|done].
  cbn [andb mbind outcome_bind m_index_names m_left_names m_right_names m_rows].
  rewrite Ei. cbn [mbind outcome_bind]. rewrite Ed. cbn [mbind outcome_bind].
  rewrite broadcast_mul_masks
    by (unfold index_column, distance_column; by rewrite !length_fmap).
  cbn [mbind outcome_bind].
  rewrite getitem_mask_masks. cbn [mbind outcome_bind].
  reflexivity.
Qed.
End JoinFacts.

Section JoinRows.
Context {V : Type}.

Lemma zip_rows_lookup (cs : list Candidate) (ls rs : list (list V)) (i : nat) :
  zip_rows cs ls rs !! i =
    c ← cs !! i; l ← ls !! i; r ← rs !! i;
    Some {| m_key := c; m_left := l; m_right := r |}.
Proof.
  revert ls rs i.
  induction cs as [|c cs IH]; intros [|l ls] [|r rs] [|i]; cbn; try done;
    try apply IH.
  all: repeat (match goal with
               | |- context [?l !! ?j] => destruct (l !! j); cbn
               end); done.
Qed.

Lemma zip_rows_numbered (it : list Candidate) (ls rs : list (list V)) :
  length it = length ls → length it = length rs →
  zip_rows it ls rs = matched_row ls rs <$> numbered it.
Proof.
  intros Hl Hr. apply list_eq. intros i.
  rewrite zip_rows_lookup, list_lookup_fmap, numbered_lookup.
  destruct (it !! i) as [c|] eqn:Ec; [|done]. cbn.
  apply lookup_lt_Some in Ec.
  destruct (lookup_lt_is_Some_2 ls i) as [l El]; [lia|].
  destruct (lookup_lt_is_Some_2 rs i) as [r Er]; [lia|].
  unfold matched_row. cbn [fst snd]. by rewrite El, Er.
Qed.

(** What a returning call returns: the merged column names, and one merged
    row per kept candidate, in the order of [kept]. *)
Lemma join_catalogs_within_inv (c : Q) (it : list Candidate)
    (lt rt res : Table V) :
  join_catalogs_within c it lt rt = Ok res →
  merged_colnames lt rt = Ok (colnames res)
  ∧ length it = length (rows lt)
  ∧ Forall2 (merged_from it lt rt) (kept c it) (rows res).
Proof.
  rewrite join_catalogs_within_unfold. unfold getitem_rows.
  destruct (mapM (λ i, rows rt !! i) (index <$> it)) as [rs|] eqn:Ers;
    [|done].
  cbn [mbind outcome_bind rows].
  destruct (hstack_colnames index_table_colnames (colnames lt) (colnames rt))
    as [[[n1 n2] n3]| |]; [|done|done].
  cbn [mbind outcome_bind].
  destruct (Nat.eqb_spec (length it) (length (rows lt))) as [Hl|];
    [|done].
  destruct (Nat.eqb_spec (length it) (length rs)) as [Hr|]; [|done].
  cbn [andb].
  destruct (merged_colnames lt rt) as [names| |]; [|done|done].
  cbn [mbind outcome_bind]. intros [= <-]. cbn [colnames rows].
  split; [done|]. split; [done|].
  rewrite zip_rows_numbered by done.
  rewrite selected_fmap.
  change (m_key ∘ matched_row (rows lt) rs) with (@fst Candidate nat).
  fold (kept c it). rewrite <- list_fmap_compose.
  apply Forall2_fmap_r, Forall_Forall2_diag, Forall_forall.
  intros cp Hcp. apply elem_of_kept_numbered, elem_of_numbered in Hcp.
  split; [done|].
  apply mapM_Some in Ers.
  pose proof (lookup_lt_Some _ _ _ Hcp) as Hlt.
  destruct (lookup_lt_is_Some_2 (rows lt) cp.2) as [l El]; [lia|].
  destruct (lookup_lt_is_Some_2 rs cp.2) as [r Er]; [lia|].
  exists l, r. split; [done|]. split.
  - eapply Forall2_lookup_lr in Ers; [exact Ers| |exact Er].
    by rewrite list_lookup_fmap, Hcp.
  - cbn. by rewrite El, Er.
Qed.

(** When a call returns: the names merge, [index_table] has one row per
    left row and its indices are rows of the right table.  The cut-off
    plays no part. *)
Lemma join_catalogs_within_Ok (c : Q) (it : list Candidate)
    (lt rt : Table V) (names : list string) :
  merged_colnames lt rt = Ok names →
  length it = length (rows lt) →
  Forall (λ cand, index cand < length (rows rt)) it →
  ∃ res, join_catalogs_within c it lt rt = Ok res ∧ colnames res = names.
Proof.
  intros Hn Hl Hidx. rewrite join_catalogs_within_unfold. unfold getitem_rows.
  destruct (mapM (λ i, rows rt !! i) (index <$> it)) as [rs|] eqn:Ers.
  2:{ apply mapM_None in Ers. apply Exists_exists in Ers as (i & Hi & Hnone).
      apply list_elem_of_fmap in Hi as (cand & -> & Hc).
      rewrite Forall_forall in Hidx. specialize (Hidx _ Hc).
      apply lookup_ge_None in Hnone. lia. }
  apply length_mapM in Ers. rewrite length_fmap in Ers.
  cbn [mbind outcome_bind rows]. rewrite Hn.
  unfold merged_colnames in Hn.
  destruct (hstack_colnames index_table_colnames (colnames lt) (colnames rt))
    as [[[n1 n2] n3]| |]; [|done|done].
  cbn [mbind outcome_bind].
  rewrite <- Hl, <- Ers, Nat.eqb_refl. cbn [andb].
  eexists. split; [reflexivity|done].
Qed.

Lemma join_catalogs_within_Ok_inv (c : Q) (it : list Candidate)
    (lt rt res : Table V) :
  join_catalogs_within c it lt rt = Ok res →
  Forall (λ cand, index cand < length (rows rt)) it.
Proof.
  rewrite join_catalogs_within_unfold. unfold getitem_rows.
  destruct (mapM (λ i, rows rt !! i) (index <$> it)) as [rs|] eqn:Ers;
    [|done].
  intros _. apply mapM_Some in Ers. apply Forall_forall. intros cand Hc.
  apply list_elem_of_lookup in Hc as [i Hi].
  assert ((index <$> it) !! i = Some (index cand)) as Hi'
    by (by rewrite list_lookup_fmap, Hi).
  destruct (Forall2_lookup_l _ _ _ _ _ Ers Hi') as (r & _ & Hr).
  by apply lookup_lt_Some in Hr.
Qed.
End JoinRows.

(** ** Winners and kept candidates *)

Lemma StronglySorted_lt_NoDup (l : list nat) : StronglySorted lt l → NoDup l.
Proof.
  induction 1 as [|i s Hs IH Hi]; constructor; [|done].
  intros Hin. rewrite Forall_forall in Hi. specialize (Hi _ Hin). lia.
Qed.

Lemma filter_length_mono {A : Type} (P Q : A → Prop)
    `{!∀ x, Decision (P x)} `{!∀ x, Decision (Q x)} (l : list A) :
  (∀ x, P x → Q x) → length (filter P l) ≤ length (filter Q l).
Proof.
  intros HPQ. induction l as [|x l IH]; [done|].
  rewrite !filter_cons.
  destruct (decide (P x)) as [HP|HP], (decide (Q x)) as [HQ|HQ]; cbn;
    [lia|by destruct HQ; apply HPQ|lia|lia].
Qed.

Lemma winner_exists (it : list Candidate) (q : nat) (cq : Candidate) :
  it !! q = Some cq →
  ∃ w, w ∈ winners it ∧ index w.1 = index cq
       ∧ (distance w.1 <= distance cq)%Q.
Proof.
  intros Hq. unfold winners. rewrite deduplicated_pick.
  apply (pick_first fst None (sort_rows fst (numbered it)) (cq, q)).
  - apply sort_rows_sorted.
  - rewrite sort_rows_perm. by apply elem_of_numbered.
  - done.
Qed.

Lemma winner_unique (it : list Candidate) (w w' : Candidate * nat) :
  w ∈ winners it → w' ∈ winners it → index w.1 = index w'.1 → w = w'.
Proof.
  unfold winners. rewrite deduplicated_pick.
  apply pick_unique, sort_rows_sorted.
Qed.

Lemma elem_of_kept (c : Q) (it : list Candidate) (cp : Candidate * nat) :
  cp ∈ kept c it ↔ cp ∈ winners it ∧ (distance cp.1 < c)%Q.
Proof.
  rewrite kept_winners, list_elem_of_filter, Qltb_lt. tauto.
Qed.

Lemma kept_ascending (c : Q) (it : list Candidate) :
  StronglySorted lt (index_column fst (kept c it)).
Proof.
  unfold kept. rewrite selected_pick. apply pick_ascending, sort_rows_sorted.
Qed.

Lemma winners_ascending (it : list Candidate) :
  StronglySorted lt (index_column fst (winners it)).
Proof.
  unfold winners. rewrite deduplicated_pick.
  apply pick_ascending, sort_rows_sorted.
Qed.

(** The row numbers of the kept candidates are distinct: a left row makes at
    most one merged row. *)
Lemma kept_positions_NoDup (c : Q) (it : list Candidate) : NoDup (kept c it).*2.
Proof.
  assert (NoDup (numbered it).*2) as Hn.
  { unfold numbered. rewrite snd_zip by (rewrite length_seq; lia).
    apply NoDup_seq. }
  unfold kept. rewrite selected_pick.
  eapply sublist_NoDup; [|apply fmap_sublist, pick_sublist].
  by rewrite sort_rows_perm.
Qed.

Lemma position_of_kept (c : Q) (it : list Candidate) (q : nat) (cq : Candidate) :
  it !! q = Some cq → q ∈ (kept c it).*2 → (cq, q) ∈ kept c it.
Proof.
  intros Hq Hin. apply list_elem_of_fmap in Hin as ([c' q'] & -> & Hin).
  pose proof (elem_of_kept_numbered _ _ _ Hin) as Hn.
  apply elem_of_numbered in Hn. cbn in *. congruence.
Qed.

(** * The claims *)

Example join_catalogs_example : join_catalogs pos_by b_catalog y_catalog = Ok phot_ins.
Proof. reflexivity. Qed.

Example kept_example :
  kept arcsec3_degree pos_by
  = [ ({| index := 0; distance := 2 # 3600 |}, 1);
      ({| index := 1; distance := 1 # 7200 |}, 2) ].
Proof. reflexivity. Qed.

Example winners_example :
  winners pos_by
  = [ ({| index := 0; distance := 2 # 3600 |}, 1);
      ({| index := 1; distance := 1 # 7200 |}, 2);
      ({| index := 2; distance := 5 # 3600 |}, 3) ].
Proof. reflexivity. Qed.

Section Claims.
Context {V : Type}.
Implicit Types (c : Q) (it : list Candidate) (ltab rtab res : Table V).

(** C1.  Closer wins.  Whenever a call returns, every right row [R] named by
    some row [q] of [index_table] has exactly one winner among the rows left
    by the deduplication; the winner names [R], and it is at least as close
    to [R] as every left row that names [R].  A left row [q] that names [R]
    and is not the winner makes no merged row at all: the merged rows are
    built, in order, from the kept candidates, and each one pairs its left
    row with the right row [index_table] gives for it, never with another
    one. *)
Theorem join_catalogs_closer_wins c it ltab rtab res (q : nat) (cq : Candidate) :
  join_catalogs_within c it ltab rtab = Ok res →
  it !! q = Some cq →
  ∃ w : Candidate * nat,
    w ∈ winners it
    ∧ index w.1 = index cq
    ∧ (distance w.1 <= distance cq)%Q
    ∧ (∀ w', w' ∈ winners it → index w'.1 = index cq → w' = w)
    ∧ ((cq, q) ≠ w → q ∉ (kept c it).*2)
    ∧ Forall2 (merged_from it ltab rtab) (kept c it) (rows res).
Proof.
  intros Hjoin Hq.
  destruct (winner_exists it q cq Hq) as (w & Hw & Hidx & Hd).
  exists w. split; [done|]. split; [done|]. split; [done|]. split.
  - intros w' Hw' Hidx'. apply (winner_unique it); [done|done|congruence].
  - split; [|by apply join_catalogs_within_inv].
    intros Hne Hin. apply Hne.
    apply (position_of_kept c it q cq Hq), elem_of_kept in Hin as [Hin _].
    apply (winner_unique it); [done|done|]. by rewrite Hidx.
Qed.

(** C2.  No right row is used twice.  Whenever a call returns, its merged
    rows are built, in order, from the kept candidates, and the right row
    numbers of the kept candidates are pairwise distinct. *)
Theorem join_catalogs_right_used_once c it ltab rtab res :
  join_catalogs_within c it ltab rtab = Ok res →
  Forall2 (merged_from it ltab rtab) (kept c it) (rows res)
  ∧ NoDup (index_column fst (kept c it)).
Proof.
  intros Hjoin. split; [by apply join_catalogs_within_inv|].
  apply StronglySorted_lt_NoDup, kept_ascending.
Qed.

(** C9.  Whenever a call returns, its merged rows are built, in order, from
    the kept candidates, whose right row numbers are strictly ascending. *)
Theorem join_catalogs_rows_ascending c it ltab rtab res :
  join_catalogs_within c it ltab rtab = Ok res →
  Forall2 (merged_from it ltab rtab) (kept c it) (rows res)
  ∧ StronglySorted lt (index_column fst (kept c it)).
Proof.
  intros Hjoin. split; [by apply join_catalogs_within_inv|].
  apply kept_ascending.
Qed.

(** C10.  No promotion.  Let the call return and let [cq], at row [q] of
    [index_table], be a closest candidate of the right row [r]: it names [r]
    and no candidate naming [r] is closer.  If [cq] is not within the
    cut-off, no merged row is made for [r]: no kept candidate names [r],
    whether or not another candidate of [r] is within the cut-off; and the
    winner of [r] itself is not kept. *)
Theorem join_catalogs_no_promotion c it ltab rtab res (r q : nat) (cq : Candidate) :
  join_catalogs_within c it ltab rtab = Ok res →
  it !! q = Some cq → index cq = r →
  (∀ q' cq', it !! q' = Some cq' → index cq' = r →
             (distance cq <= distance cq')%Q) →
  (c <= distance cq)%Q →
  Forall2 (merged_from it ltab rtab) (kept c it) (rows res)
  ∧ (r ∉ index_column fst (kept c it))
  ∧ (∀ w, w ∈ winners it → index w.1 = r → w ∉ kept c it).
Proof.
  intros Hjoin Hq Hr Hmin Hc.
  split; [by apply join_catalogs_within_inv|].
  assert (∀ cp, cp ∈ kept c it → index cp.1 ≠ r) as Hno.
  { intros cp Hcp Hidx.
    pose proof (elem_of_kept_numbered _ _ _ Hcp) as Hn.
    apply elem_of_numbered in Hn.
    apply elem_of_kept in Hcp as [_ Hlt].
    specialize (Hmin _ _ Hn Hidx). lra. }
  split.
  - intros Hin. apply list_elem_of_fmap in Hin as (cp & -> & Hcp).
    by apply (Hno cp).
  - intros w _ Hidx Hw. by apply (Hno w).
Qed.

(** C3, as the code has it.  A winner of the deduplication is left out of
    the result exactly when its distance is at least the cut-off; a winner
    at exactly the cut-off is left out. *)
Theorem cutoff_is_strict c it ltab rtab res (cp : Candidate * nat) :
  join_catalogs_within c it ltab rtab = Ok res →
  cp ∈ winners it →
  Forall2 (merged_from it ltab rtab) (kept c it) (rows res)
  ∧ (cp ∉ kept c it ↔ (c <= distance cp.1)%Q)
  ∧ ((distance cp.1 == c)%Q → cp ∉ kept c it).
Proof.
  intros Hjoin Hw. split; [by apply join_catalogs_within_inv|].
  assert (cp ∉ kept c it ↔ (c <= distance cp.1)%Q) as Hiff.
  { rewrite elem_of_kept. split.
    - intros Hn. destruct (Qlt_le_dec (distance cp.1) c); [|done].
      by destruct Hn.
    - intros Hle [_ Hlt]. lra. }
  split; [done|]. intros Heq. apply Hiff. lra.
Qed.

(** C6.  The number of merged rows grows with the cut-off: if the call with
    cut-off [t1] returns and [t1 <= t2], the call with cut-off [t2] returns
    too, with at least as many rows. *)
Theorem join_catalogs_monotone (t1 t2 : Q) it ltab rtab (r1 : Table V) :
  (t1 <= t2)%Q →
  join_catalogs_within t1 it ltab rtab = Ok r1 →
  ∃ r2, join_catalogs_within t2 it ltab rtab = Ok r2
        ∧ length (rows r1) ≤ length (rows r2).
Proof.
  intros Ht H1.
  destruct (join_catalogs_within_inv _ _ _ _ _ H1) as (Hn & Hl & Hrows1).
  pose proof (join_catalogs_within_Ok_inv _ _ _ _ _ H1) as Hidx.
  destruct (join_catalogs_within_Ok t2 it ltab rtab _ Hn Hl Hidx) as (r2 & H2 & _).
  exists r2. split; [done|].
  destruct (join_catalogs_within_inv _ _ _ _ _ H2) as (_ & _ & Hrows2).
  apply Forall2_length in Hrows1, Hrows2. rewrite <- Hrows1, <- Hrows2.
  rewrite !kept_winners. apply filter_length_mono.
  intros cp. rewrite !Qltb_lt. lra.
Qed.
End Claims.

Section Degenerate.
Context {V : Type}.
Implicit Types (c : Q) (it : list Candidate) (ltab rtab res : Table V).


End Degenerate.

(** ** Column names *)

Lemma hstack_colnames_inv (n1 n2 n3 o1 o2 o3 : list string) :
  hstack_colnames n1 n2 n3 = Ok (o1, o2, o3) →
  o1 = out_name [n2; n3] "1" <$> n1
  ∧ o2 = out_name [n1; n3] "2" <$> n2
  ∧ o3 = out_name [n1; n2] "3" <$> n3
  ∧ NoDup (o1 ++ o2 ++ o3).
Proof.
  unfold hstack_colnames. case_bool_decide as Hnd; [|done].
  intros [= <- <- <-]. done.
Qed.

Lemma merged_colnames_inv {V : Type} (ltab rtab : Table V) (names : list string) :
  merged_colnames ltab rtab = Ok names →
  names = (out_name [index_table_colnames; colnames rtab] "2" <$> colnames ltab)
          ++ (out_name [index_table_colnames; colnames ltab] "3" <$> colnames rtab)
  ∧ NoDup names.
Proof.
  unfold merged_colnames.
  destruct (hstack_colnames index_table_colnames (colnames ltab) (colnames rtab))
    as [[[o1 o2] o3]| |] eqn:Eh; [|done|done].
  cbn [mbind outcome_bind].
  do 2 (case_bool_decide; [|done]). intros [= <-].
  apply hstack_colnames_inv in Eh as (_ & -> & -> & Hnd).
  split; [done|]. by apply NoDup_app in Hnd as (_ & _ & Hnd).
Qed.

Lemma uniq_col_name_underscore (name table_name : string) :
  has_underscore (uniq_col_name name table_name) = true.
Proof.
  unfold uniq_col_name. induction name as [|ch name IH]; [done|].
  change (bool_decide (ch = "_"%char)
          || has_underscore (name +:+ "_" +:+ table_name) = true).
  rewrite IH. apply orb_true_r.
Qed.

Lemma out_name_cases (others : list (list string)) (table_name name : string) :
  (out_name others table_name name = name
   ∧ Forall (λ other, name ∉ other) others)
  ∨ out_name others table_name name = uniq_col_name name table_name.
Proof.
  unfold out_name.
  destruct (existsb _ others) eqn:E; [by right|]. left. split; [done|].
  apply Forall_forall. intros other Hin Hname.
  assert (existsb (λ other, bool_decide (name ∈ other)) others = true) as Ht.
  { apply existsb_exists. exists other. split.
    - by apply list_elem_of_In.
    - by apply bool_decide_eq_true_2. }
  congruence.
Qed.

(** A name without underscore among the names [hstack] gives to the columns
    of a table is a column name of that table, and of no other table. *)
Lemma plain_name_kept (others : list (list string)) (table_name name : string)
    (names : list string) :
  has_underscore name = false →
  name ∈ out_name others table_name <$> names →
  name ∈ names ∧ Forall (λ other, name ∉ other) others.
Proof.
  intros Hplain Hin. apply list_elem_of_fmap in Hin as (x & Hx & Hin).
  destruct (out_name_cases others table_name x) as [[Heq Hothers]|Heq];
    rewrite Heq in Hx.
  - by subst x.
  - rewrite Hx, uniq_col_name_underscore in Hplain. done.
Qed.

(** The typed reading of the key columns is right: in the names [hstack]
    gives, ['index'] and ['distance'] can only be the names of the two
    columns of [index_table], unchanged. *)
Lemma key_columns_of_index_table (n2 n3 o1 o2 o3 : list string) :
  hstack_colnames index_table_colnames n2 n3 = Ok (o1, o2, o3) →
  ("index" ∈ o1 ++ o2 ++ o3 → "distance" ∈ o1 ++ o2 ++ o3 →
   o1 = index_table_colnames)
  ∧ ("index" ∉ o2 ++ o3)
  ∧ ("distance" ∉ o2 ++ o3).
Proof.
  intros Hh. apply hstack_colnames_inv in Hh as (Ho1 & Ho2 & Ho3 & _).
  assert (∀ name, name ∈ index_table_colnames → has_underscore name = false →
                  name ∉ o2 ++ o3) as Hnot.
  { intros name Hname Hplain Hin. apply elem_of_app in Hin as [Hin|Hin].
    - rewrite Ho2 in Hin.
      apply plain_name_kept in Hin as [_ Hothers]; [|done].
      apply Forall_cons in Hothers as [Hno _]. by apply Hno.
    - rewrite Ho3 in Hin.
      apply plain_name_kept in Hin as [_ Hothers]; [|done].
      apply Forall_cons in Hothers as [Hno _]. by apply Hno. }
  assert ("index" ∉ o2 ++ o3) as Hi
    by (apply Hnot; [apply list_elem_of_here|done]).
  assert ("distance" ∉ o2 ++ o3) as Hd
    by (apply Hnot; [apply list_elem_of_further, list_elem_of_here|done]).
  split; [|done].
  intros Hin_i Hin_d.
  apply elem_of_app in Hin_i as [Hin_i|?]; [|done].
  apply elem_of_app in Hin_d as [Hin_d|?]; [|done].
  rewrite Ho1 in Hin_i, Hin_d.
  apply plain_name_kept in Hin_i as [_ Hoi]; [|done].
  apply plain_name_kept in Hin_d as [_ Hod]; [|done].
  rewrite Ho1. unfold index_table_colnames. cbn [fmap list_fmap].
  destruct (out_name_cases [n2; n3] "1" "index") as [[-> _]|Heq].
  2:{ exfalso. apply Forall_cons in Hoi as [Hn2 Hoi].
      apply Forall_cons in Hoi as [Hn3 _].
      unfold out_name in Heq. cbn [existsb] in Heq.
      rewrite !bool_decide_eq_false_2 in Heq by done. cbn in Heq.
      discriminate Heq. }
  destruct (out_name_cases [n2; n3] "1" "distance") as [[-> _]|Heq]; [done|].
  exfalso. apply Forall_cons in Hod as [Hn2 Hod].
  apply Forall_cons in Hod as [Hn3 _].
  unfold out_name in Heq. cbn [existsb] in Heq.
  rewrite !bool_decide_eq_false_2 in Heq by done. cbn in Heq.
  discriminate Heq.
Qed.

Lemma out_name_shared (others : list (list string)) (table_name name : string) :
  Exists (λ other, name ∈ other) others →
  out_name others table_name name = uniq_col_name name table_name.
Proof.
  intros Hex. unfold out_name.
  destruct (existsb _ others) eqn:E; [done|].
  apply Exists_exists in Hex as (other & Hin & Hname).
  assert (existsb (λ other, bool_decide (name ∈ other)) others = true) as Ht.
  { apply existsb_exists. exists other. split.
    - by apply list_elem_of_In.
    - by apply bool_decide_eq_true_2. }
  congruence.
Qed.

Lemma uniq_col_name_inj (name t1 t2 : string) :
  uniq_col_name name t1 = uniq_col_name name t2 → t1 = t2.
Proof.
  unfold uniq_col_name. intros H.
  apply (inj (String.append name)) in H.
  by apply (inj (String.append "_")) in H.
Qed.

(** In a table with distinct column names, the field called like column [i]
    is cell [i]. *)
Lemma field_lookup {V : Type} (names : list string) (row : list V)
    (i : nat) (name : string) :
  NoDup names → names !! i = Some name → field names row name = row !! i.
Proof.
  intros Hnd Hi. unfold field.
  assert (list_find (λ n, n = name) names = Some (i, name)) as ->; [|done].
  apply list_find_Some. split; [done|]. split; [done|].
  intros j y Hj Hlt ->. pose proof (NoDup_lookup _ _ _ _ Hnd Hi Hj). lia.
Qed.

(** The field called [name] is the cell of the first column of that name. *)
Lemma field_first {V : Type} (names : list string) (row : list V) (name : string) :
  name ∈ names →
  ∃ i, names !! i = Some name ∧ field names row name = row !! i.
Proof.
  intros Hin. unfold field.
  destruct (list_find_elem_of (λ n, n = name) names name Hin eq_refl)
    as [[i n] Hfind].
  rewrite Hfind. apply list_find_Some in Hfind as (Hi & -> & _).
  by exists i.
Qed.

Section Exposes.
Context {V : Type}.
Implicit Types (ltab rtab res : Table V).

Lemma exposes_both_intro ltab rtab res (l r : list V) :
  merged_colnames ltab rtab = Ok (colnames res) →
  length l = length (colnames ltab) →
  length r = length (colnames rtab) →
  exposes_both ltab rtab res l r (l ++ r).
Proof.
  intros Hn Hl Hr. apply merged_colnames_inv in Hn as [Hnames Hnd].
  set (f2 := out_name [index_table_colnames; colnames rtab] "2") in *.
  set (f3 := out_name [index_table_colnames; colnames ltab] "3") in *.
  assert (∀ name, name ∈ colnames ltab →
            is_Some (field (colnames ltab) l name)
            ∧ field (colnames res) (l ++ r) (f2 name)
              = field (colnames ltab) l name) as Hleft.
  { intros name Hin.
    destruct (field_first (colnames ltab) l name Hin) as (i & Hi & ->).
    pose proof (lookup_lt_Some _ _ _ Hi) as Hlt.
    split; [apply lookup_lt_is_Some_2; lia|].
    rewrite (field_lookup (colnames res) (l ++ r) i (f2 name) Hnd).
    - apply lookup_app_l. lia.
    - rewrite Hnames, lookup_app_l by (rewrite length_fmap; lia).
      by rewrite list_lookup_fmap, Hi. }
  assert (∀ name, name ∈ colnames rtab →
            is_Some (field (colnames rtab) r name)
            ∧ field (colnames res) (l ++ r) (f3 name)
              = field (colnames rtab) r name) as Hright.
  { intros name Hin.
    destruct (field_first (colnames rtab) r name Hin) as (j & Hj & ->).
    pose proof (lookup_lt_Some _ _ _ Hj) as Hlt.
    split; [apply lookup_lt_is_Some_2; lia|].
    rewrite (field_lookup (colnames res) (l ++ r) (length l + j) (f3 name) Hnd).
    - rewrite lookup_app_r by lia. f_equal. lia.
    - rewrite Hnames, lookup_app_r by (rewrite length_fmap; lia).
      rewrite length_fmap, list_lookup_fmap.
      replace (length l + j - length (colnames ltab)) with j by lia.
      by rewrite Hj. }
  split; [exact Hleft|]. split; [exact Hright|].
  intros name Hinl Hinr. split.
  - intros Heq. by apply uniq_col_name_inj in Heq.
  - rewrite <- (out_name_shared [index_table_colnames; colnames rtab] "2" name)
      by (apply Exists_cons_tl, Exists_cons_hd, Hinr).
    rewrite <- (out_name_shared [index_table_colnames; colnames ltab] "3" name)
      by (apply Exists_cons_tl, Exists_cons_hd, Hinl).
    split; [apply Hleft, Hinl|apply Hright, Hinr].
Qed.
End Exposes.

(** *** The renaming loop *)

Lemma rename_in_place (pre rest : list string) (name new : string) :
  NoDup (pre ++ name :: rest) →
  (λ n, if bool_decide (n = name) then new else n) <$> (pre ++ name :: rest)
  = pre ++ new :: rest.
Proof.
  intros Hnd. apply NoDup_app in Hnd as (_ & Hpre & Hrest).
  apply NoDup_cons in Hrest as [Hrest _].
  rewrite fmap_app, fmap_cons, bool_decide_eq_true_2 by done.
  f_equal; [|f_equal].
  - rewrite <- (list_fmap_id pre) at 2. apply list_fmap_ext.
    intros i n Hn. cbn. rewrite bool_decide_eq_false_2; [done|].
    intros ->. apply (Hpre name); [by eapply list_elem_of_lookup_2|].
    apply list_elem_of_here.
  - rewrite <- (list_fmap_id rest) at 2. apply list_fmap_ext.
    intros i n Hn. cbn. rewrite bool_decide_eq_false_2; [done|].
    intros ->. apply Hrest. by eapply list_elem_of_lookup_2.
Qed.

Lemma tidy_loop_inv (pre cols names' : list string) :
  NoDup (pre ++ cols) →
  tidy_loop cols (pre ++ cols) = Ok names' →
  names' = pre ++ (new_name <$> cols) ∧ NoDup names'.
Proof.
  revert pre. induction cols as [|col cols IH]; intros pre Hnd.
  - cbn. intros [= <-]. done.
  - cbn [tidy_loop]. unfold rename_column.
    rewrite bool_decide_eq_true_2
      by (apply elem_of_app; right; apply list_elem_of_here).
    case_bool_decide as Hsame.
    + cbn [mbind outcome_bind]. intros Hloop.
      specialize (IH (pre ++ [col])). rewrite <- app_assoc in IH.
      destruct (IH Hnd Hloop) as [-> Hnd'].
      rewrite <- app_assoc in *. cbn.
      split; [by rewrite <- Hsame|exact Hnd'].
    + case_bool_decide as Hnew; [done|].
      cbn [mbind outcome_bind]. rewrite rename_in_place by done.
      intros Hloop.
      assert (NoDup (pre ++ new_name col :: cols)) as Hnd2.
      { apply NoDup_app in Hnd as (Hp & Hpc & Hc).
        apply NoDup_cons in Hc as [Hc1 Hc2].
        apply NoDup_app. split; [done|]. split.
        - intros x Hx Hin. apply elem_of_cons in Hin as [->|Hin].
          + apply Hnew, elem_of_app. by left.
          + apply (Hpc x Hx). by apply list_elem_of_further.
        - apply NoDup_cons. split; [|done].
          intros Hin. apply Hnew, elem_of_app. right.
          by apply list_elem_of_further. }
      specialize (IH (pre ++ [new_name col])).
      rewrite <- !app_assoc in IH. cbn in IH.
      exact (IH Hnd2 Hloop).
Qed.

Lemma tidy_column_names_inv {V : Type} (t t' : Table V) :
  NoDup (colnames t) →
  tidy_column_names t = Ok t' →
  colnames t' = new_name <$> colnames t
  ∧ NoDup (colnames t')
  ∧ rows t' = rows t.
Proof.
  intros Hnd. unfold tidy_column_names.
  destruct (tidy_loop (colnames t) (colnames t)) as [names| |] eqn:E;
    [|done|done].
  cbn [mbind outcome_bind]. intros [= <-]. cbn [colnames rows].
  destruct (tidy_loop_inv [] (colnames t) names Hnd E) as [-> Hnd'].
  done.
Qed.

(** C7.  Whenever a call on tables whose rows have one cell per column
    returns, the merged column names are pairwise distinct, and every merged
    row is a left row followed by the right row matched to it, showing every
    field of both under the merged names: a name the two tables share gives
    two fields, with the suffixes [_2] and [_3], holding the left and the
    right value.  When the renaming loop of the caller returns, it has
    renamed every column where it stood, the names still are pairwise
    distinct and the rows are those of the merged table. *)
Theorem merged_record_exposes_both {V : Type} (c : Q) (it : list Candidate)
    (ltab rtab res : Table V) :
  join_catalogs_within c it ltab rtab = Ok res →
  Forall (λ l, length l = length (colnames ltab)) (rows ltab) →
  Forall (λ r, length r = length (colnames rtab)) (rows rtab) →
  NoDup (colnames res)
  ∧ Forall2 (λ cp row,
       ∃ l r, rows ltab !! cp.2 = Some l
              ∧ rows rtab !! index cp.1 = Some r
              ∧ row = l ++ r
              ∧ exposes_both ltab rtab res l r row)
      (kept c it) (rows res)
  ∧ (∀ res', tidy_column_names res = Ok res' →
       colnames res' = new_name <$> colnames res
       ∧ NoDup (colnames res')
       ∧ rows res' = rows res).
Proof.
  intros Hjoin Hlw Hrw.
  destruct (join_catalogs_within_inv _ _ _ _ _ Hjoin) as (Hn & _ & Hrows).
  pose proof (merged_colnames_inv _ _ _ Hn) as [_ Hnd].
  split; [exact Hnd|]. split.
  - eapply Forall2_impl; [exact Hrows|].
    intros cp row (_ & l & r & Hl & Hr & ->).
    exists l, r. split; [done|]. split; [done|]. split; [done|].
    apply exposes_both_intro; [done| |].
    + rewrite Forall_forall in Hlw. apply Hlw.
      by eapply list_elem_of_lookup_2.
    + rewrite Forall_forall in Hrw. apply Hrw.
      by eapply list_elem_of_lookup_2.
  - intros res'. by apply tidy_column_names_inv.
Qed.

(** ** The claims on the small catalogs *)

Lemma join_catalogs_closer_wins_witness :
  join_catalogs_within arcsec3_degree pos_by b_catalog y_catalog = Ok phot_ins
  ∧ pos_by !! 0 = Some {| index := 1; distance := 1 # 3600 |}
  ∧ ∃ w : Candidate * nat,
      w ∈ winners pos_by
      ∧ index w.1 = 1
      ∧ (distance w.1 <= 1 # 3600)%Q
      ∧ (∀ w', w' ∈ winners pos_by → index w'.1 = 1 → w' = w)
      ∧ (({| index := 1; distance := 1 # 3600 |}, 0) ≠ w
         → 0 ∉ (kept arcsec3_degree pos_by).*2)
      ∧ Forall2 (merged_from pos_by b_catalog y_catalog)
          (kept arcsec3_degree pos_by) (rows phot_ins).
Proof.
  split; [reflexivity|]. split; [reflexivity|].
  apply (join_catalogs_closer_wins arcsec3_degree pos_by b_catalog y_catalog
           phot_ins 0 {| index := 1; distance := 1 # 3600 |});
    reflexivity.
Defined.

Lemma join_catalogs_right_used_once_witness :
  join_catalogs_within arcsec3_degree pos_by b_catalog y_catalog = Ok phot_ins
  ∧ Forall2 (merged_from pos_by b_catalog y_catalog)
      (kept arcsec3_degree pos_by) (rows phot_ins)
  ∧ NoDup (index_column fst (kept arcsec3_degree pos_by)).
Proof.
  split; [reflexivity|].
  apply (join_catalogs_right_used_once arcsec3_degree pos_by b_catalog
           y_catalog phot_ins).
  reflexivity.
Defined.

Lemma join_catalogs_rows_ascending_witness :
  join_catalogs_within arcsec3_degree pos_by b_catalog y_catalog = Ok phot_ins
  ∧ Forall2 (merged_from pos_by b_catalog y_catalog)
      (kept arcsec3_degree pos_by) (rows phot_ins)
  ∧ StronglySorted lt (index_column fst (kept arcsec3_degree pos_by)).
Proof.
  split; [reflexivity|].
  apply (join_catalogs_rows_ascending arcsec3_degree pos_by b_catalog
           y_catalog phot_ins).
  reflexivity.
Defined.

(** With a cut-off of a quarter of an arc second, the closest candidate
    of right row 1 is beyond the cut-off. *)
Lemma join_catalogs_no_promotion_witness :
  (∀ q' cq', pos_by !! q' = Some cq' → index cq' = 1 →
             (1 # 7200 <= distance cq')%Q)
  ∧ (1 # 14400 <= 1 # 7200)%Q
  ∧ Forall2 (merged_from pos_by b_catalog y_catalog)
      (kept (1 # 14400) pos_by)
      (rows {| colnames := colnames phot_ins; rows := [] |})
  ∧ (1 ∉ index_column fst (kept (1 # 14400) pos_by))
  ∧ (∀ w, w ∈ winners pos_by → index w.1 = 1 → w ∉ kept (1 # 14400) pos_by).
Proof.
  assert (∀ q' cq', pos_by !! q' = Some cq' → index cq' = 1 →
                    (1 # 7200 <= distance cq')%Q) as Hmin.
  { intros [|[|[|[|q']]]] cq'; cbn; intros [= <-]; cbn; try done;
      intros _; unfold Qle; cbn; lia. }
  split; [exact Hmin|]. split; [unfold Qle; cbn; lia|].
  apply (join_catalogs_no_promotion (1 # 14400) pos_by b_catalog y_catalog
           {| colnames := colnames phot_ins; rows := [] |} 1 2
           {| index := 1; distance := 1 # 7200 |});
    [reflexivity|reflexivity|reflexivity|exact Hmin|unfold Qle; cbn; lia].
Defined.

Lemma cutoff_is_strict_witness :
  join_catalogs_within arcsec3_degree edge_pos edge_catalog y_catalog
  = Ok {| colnames := colnames phot_ins; rows := [] |}
  ∧ ({| index := 0; distance := arcsec3_degree |}, 0) ∈ winners edge_pos
  ∧ Forall2 (merged_from edge_pos edge_catalog y_catalog)
      (kept arcsec3_degree edge_pos) []
  ∧ (({| index := 0; distance := arcsec3_degree |}, 0)
       ∉ kept arcsec3_degree edge_pos
     ↔ (arcsec3_degree <= arcsec3_degree)%Q)
  ∧ ((arcsec3_degree == arcsec3_degree)%Q
     → ({| index := 0; distance := arcsec3_degree |}, 0)
         ∉ kept arcsec3_degree edge_pos).
Proof.
  split; [reflexivity|].
  assert (({| index := 0; distance := arcsec3_degree |}, 0) ∈ winners edge_pos)
    as Hw by (apply list_elem_of_here).
  split; [exact Hw|].
  apply (cutoff_is_strict arcsec3_degree edge_pos edge_catalog y_catalog
           {| colnames := colnames phot_ins; rows := [] |}
           ({| index := 0; distance := arcsec3_degree |}, 0));
    [reflexivity|exact Hw].
Defined.

(** C3, as stated, fails on a call of [join_catalogs] itself: the star of
    [edge_catalog] wins its right row, its distance is the cut-off of the
    routine and not more, and it is left out of the merged catalog. *)
Lemma cutoff_at_equality_counterexample :
  join_catalogs edge_pos edge_catalog y_catalog
  = Ok {| colnames := colnames phot_ins; rows := [] |}
  ∧ winners edge_pos = [({| index := 0; distance := arcsec3_degree |}, 0)]
  ∧ kept arcsec3_degree edge_pos = []
  ∧ ¬ (∀ cp : Candidate * nat,
         cp ∈ winners edge_pos →
         (cp ∉ kept arcsec3_degree edge_pos
          ↔ (arcsec3_degree < distance cp.1)%Q)).
Proof.
  split; [reflexivity|]. split; [reflexivity|]. split; [reflexivity|].
  intros H.
  specialize (H ({| index := 0; distance := arcsec3_degree |}, 0)
                (list_elem_of_here _ _)).
  destruct H as [H _].
  assert ((arcsec3_degree < arcsec3_degree)%Q) as Hlt.
  { apply H. intros Hin. by apply elem_of_nil in Hin. }
  by apply Qlt_irrefl in Hlt.
Qed.

Lemma join_catalogs_monotone_witness :
  (1 # 14400 <= arcsec3_degree)%Q
  ∧ join_catalogs_within (1 # 14400) pos_by b_catalog y_catalog
    = Ok {| colnames := colnames phot_ins; rows := [] |}
  ∧ ∃ r2, join_catalogs_within arcsec3_degree pos_by b_catalog y_catalog = Ok r2
          ∧ 0 ≤ length (rows r2).
Proof.
  assert ((1 # 14400 <= arcsec3_degree)%Q) as Ht
    by (unfold arcsec3_degree, Qle; cbn; lia).
  split; [exact Ht|]. split; [reflexivity|].
  apply (join_catalogs_monotone (1 # 14400) arcsec3_degree pos_by b_catalog
           y_catalog {| colnames := colnames phot_ins; rows := [] |} Ht).
  reflexivity.
Defined.



Example tidy_column_names_example : tidy_column_names phot_ins = Ok phot_ins_tidy.
Proof. reflexivity. Qed.

Example mag_fields_example :
  field (colnames phot_ins)
    ["b2"; "132.8100"; "11.8000"; "15.02"; "y1"; "132.8100"; "11.8000"; "14.77"]
    "mag_2" = Some "15.02"
  ∧ field (colnames phot_ins)
      ["b2"; "132.8100"; "11.8000"; "15.02"; "y1"; "132.8100"; "11.8000"; "14.77"]
      "mag_3" = Some "14.77".
Proof. split; reflexivity. Qed.

Lemma merged_record_exposes_both_witness :
  join_catalogs_within arcsec3_degree pos_by b_catalog y_catalog = Ok phot_ins
  ∧ Forall (λ l, length l = length (colnames b_catalog)) (rows b_catalog)
  ∧ Forall (λ r, length r = length (colnames y_catalog)) (rows y_catalog)
  ∧ NoDup (colnames phot_ins)
  ∧ Forall2 (λ cp row,
       ∃ l r, rows b_catalog !! cp.2 = Some l
              ∧ rows y_catalog !! index cp.1 = Some r
              ∧ row = l ++ r
              ∧ exposes_both b_catalog y_catalog phot_ins l r row)
      (kept arcsec3_degree pos_by) (rows phot_ins)
  ∧ (∀ res', tidy_column_names phot_ins = Ok res' →
       colnames res' = new_name <$> colnames phot_ins
       ∧ NoDup (colnames res')
       ∧ rows res' = rows phot_ins).
Proof.
  assert (Forall (λ l, length l = length (colnames b_catalog)) (rows b_catalog))
    as Hl by (repeat constructor).
  assert (Forall (λ r, length r = length (colnames y_catalog)) (rows y_catalog))
    as Hr by (repeat constructor).
  split; [reflexivity|]. split; [exact Hl|]. split; [exact Hr|].
  apply (merged_record_exposes_both arcsec3_degree pos_by b_catalog y_catalog
           phot_ins); [reflexivity|exact Hl|exact Hr].
Defined.

(** ** The store *)

Section StoreFacts.
Context {V : Type}.
Implicit Types (h : heap V) (it : list Candidate) (ltab rtab res : Table V).

Lemma py_bind_unfold {A B : Type} (m : Py (V:=V) A) (f : A → Py (V:=V) B) h :
  (m ≫= f) h = match m h with
               | (Ok a, h') => f a h'
               | (Raise e, h') => (Raise e, h')
               | (MaskedPadding, h') => (MaskedPadding, h')
               end.
Proof. reflexivity. Qed.

Lemma load_index_table_at h (l : nat) it :
  h !! l = Some (OIndexTable it) → load_index_table l h = (Ok it, h).
Proof.
  intros Hl. unfold load_index_table. rewrite py_bind_unfold.
  unfold load. by rewrite Hl.
Qed.

Lemma load_table_at h (l : nat) (t : Table V) :
  h !! l = Some (OTable t) → load_table l h = (Ok t, h).
Proof.
  intros Hl. unfold load_table. rewrite py_bind_unfold.
  unfold load. by rewrite Hl.
Qed.

Lemma load_matched_at h (l : nat) (m : Matched V) :
  h !! l = Some (OMatched m) → load_matched l h = (Ok m, h).
Proof.
  intros Hl. unfold load_matched. rewrite py_bind_unfold.
  unfold load. by rewrite Hl.
Qed.

(** The run of [join_catalogs] on references to three tables: what it
    returns and the store it leaves, from the run on the tables
    themselves. *)
Lemma join_catalogs_py_run (c : Q) (il ll rl : nat) h it ltab rtab :
  h !! il = Some (OIndexTable it) →
  h !! ll = Some (OTable ltab) →
  h !! rl = Some (OTable rtab) →
  ∃ new : list (object V),
    (join_catalogs_py c il ll rl h).2 = h ++ new
    ∧ match join_catalogs_within c it ltab rtab with
      | Ok res => (join_catalogs_py c il ll rl h).1 = Ok (length h + 2)
                  ∧ new !! 2 = Some (OTable res)
      | Raise e => (join_catalogs_py c il ll rl h).1 = Raise e
      | MaskedPadding => (join_catalogs_py c il ll rl h).1 = MaskedPadding
      end.
Proof.
  intros Hil Hll Hrl.
  remember (join_catalogs_py c il ll rl h) as run eqn:Hrun.
  unfold join_catalogs_py in Hrun. unfold join_catalogs_within.
  rewrite py_bind_unfold in Hrun. unfold index_py in Hrun.
  rewrite py_bind_unfold, (load_index_table_at h il it Hil) in Hrun.
  cbn [mret py_ret] in Hrun.
  rewrite py_bind_unfold in Hrun. unfold getitem_rows_py in Hrun.
  rewrite py_bind_unfold, (load_table_at h rl rtab Hrl), py_bind_unfold in Hrun.
  unfold lift at 1 in Hrun.
  destruct (getitem_rows rtab (index <$> it)) as [sel|e|];
    cbn [mbind outcome_bind];
    [|by subst run; exists []; rewrite app_nil_r..].
  unfold new at 1 in Hrun.
  set (h1 := h ++ [OTable sel]) in Hrun.
  assert (h1 !! il = Some (OIndexTable it)) as Hil1
    by (unfold h1; rewrite lookup_app_l; [done|by eapply lookup_lt_Some]).
  assert (h1 !! ll = Some (OTable ltab)) as Hll1
    by (unfold h1; rewrite lookup_app_l; [done|by eapply lookup_lt_Some]).
  assert (h1 !! length h = Some (OTable sel)) as Hsel1
    by (unfold h1; by rewrite list_lookup_middle).
  rewrite py_bind_unfold in Hrun. unfold hstack_py in Hrun.
  rewrite py_bind_unfold, (load_index_table_at h1 il it Hil1) in Hrun.
  rewrite py_bind_unfold, (load_table_at h1 ll ltab Hll1) in Hrun.
  rewrite py_bind_unfold, (load_table_at h1 (length h) sel Hsel1) in Hrun.
  rewrite py_bind_unfold in Hrun. unfold lift at 1 in Hrun.
  destruct (hstack it ltab sel) as [m|e|]; cbn [mbind outcome_bind];
    [|by subst run; exists [OTable sel]..].
  unfold new at 1 in Hrun.
  assert (length h1 = S (length h)) as Hlen1
    by (unfold h1; rewrite length_app; cbn; lia).
  rewrite Hlen1 in Hrun.
  set (h2 := h1 ++ [OMatched m]) in Hrun.
  assert (h2 !! S (length h) = Some (OMatched m)) as Hm2
    by (unfold h2; rewrite <- Hlen1; by rewrite list_lookup_middle).
  rewrite py_bind_unfold in Hrun. unfold sort_py in Hrun.
  rewrite py_bind_unfold, (load_matched_at h2 _ m Hm2) in Hrun.
  rewrite py_bind_unfold in Hrun. unfold lift at 1 in Hrun.
  destruct (table_sort m) as [m'|e|]; cbn [mbind outcome_bind];
    [|by subst run; exists [OTable sel; OMatched m]; unfold h2, h1;
         rewrite <- app_assoc..].
  unfold store at 1 in Hrun.
  assert (<[S (length h) := OMatched m']> h2 = h ++ [OTable sel; OMatched m'])
    as Hh3.
  { unfold h2, h1. rewrite <- app_assoc. cbn.
    rewrite insert_app_r_alt by lia.
    replace (S (length h) - length h) with 1 by lia. done. }
  rewrite Hh3 in Hrun. clear Hh3.
  set (h3 := h ++ [OTable sel; OMatched m']) in Hrun.
  assert (h3 !! S (length h) = Some (OMatched m')) as Hm3.
  { unfold h3. rewrite lookup_app_r by lia.
    replace (S (length h) - length h) with 1 by lia. done. }
  rewrite py_bind_unfold in Hrun. unfold getitem_index_py in Hrun.
  rewrite py_bind_unfold, (load_matched_at h3 _ m' Hm3) in Hrun.
  unfold lift at 1 in Hrun.
  destruct (getitem_key m' "index" (index_column m_key (m_rows m')))
    as [idx|e|]; cbn [mbind outcome_bind];
    [|by subst run; exists [OTable sel; OMatched m']..].
  rewrite py_bind_unfold in Hrun. unfold getitem_distance_py in Hrun.
  rewrite py_bind_unfold, (load_matched_at h3 _ m' Hm3) in Hrun.
  unfold lift at 1 in Hrun.
  destruct (getitem_key m' "distance" (distance_column m_key (m_rows m')))
    as [dist|e|]; cbn [mbind outcome_bind];
    [|by subst run; exists [OTable sel; OMatched m']..].
  rewrite py_bind_unfold in Hrun. unfold lift at 1 in Hrun.
  destruct (broadcast_mul (good_match idx) (nearby c dist)) as [mask|e|];
    cbn [mbind outcome_bind];
    [|by subst run; exists [OTable sel; OMatched m']..].
  rewrite py_bind_unfold in Hrun. unfold getitem_mask_py in Hrun.
  rewrite py_bind_unfold, (load_matched_at h3 _ m' Hm3) in Hrun.
  rewrite py_bind_unfold in Hrun. unfold lift at 1 in Hrun.
  destruct (getitem_mask (m_rows m') mask) as [rrows|e|];
    cbn [mbind outcome_bind];
    [|by subst run; exists [OTable sel; OMatched m']..].
  unfold new at 1 in Hrun.
  assert (length h3 = length h + 2) as Hlen3
    by (unfold h3; rewrite length_app; cbn; lia).
  rewrite Hlen3 in Hrun.
  set (r := {| m_index_names := m_index_names m';
               m_left_names := m_left_names m';
               m_right_names := m_right_names m'; m_rows := rrows |}) in *.
  set (h4 := h3 ++ [OMatched r]) in Hrun.
  assert (h4 !! (length h + 2) = Some (OMatched r)) as Hr4
    by (unfold h4; rewrite <- Hlen3; by rewrite list_lookup_middle).
  rewrite py_bind_unfold in Hrun. unfold del_index_distance_py in Hrun.
  rewrite py_bind_unfold, (load_matched_at h4 _ r Hr4) in Hrun.
  unfold store in Hrun. cbn [mret py_ret] in Hrun.
  subst run. cbn [fst snd].
  exists [OTable sel; OMatched m'; OTable (del_index_distance r)].
  split; [|done].
  unfold h4, h3. rewrite <- app_assoc. cbn.
  rewrite insert_app_r_alt by lia.
  replace (length h + 2 - length h) with 2 by lia. done.
Qed.
End StoreFacts.

(** C8.  [join_catalogs] changes none of the objects it is given, nor any
    other object alive when it is called: every reference of the store holds
    after the call the object it held before.  What the call returns is
    decided by the three tables alone: it is the outcome of the run on the
    tables themselves, returned in a new object; and a second call on the
    store left by the first has the same outcome, so that the first call
    left nothing behind that a later call can see. *)
Theorem join_catalogs_py_pure {V : Type} (c : Q) (il ll rl : nat) (h : heap V)
    (it : list Candidate) (ltab rtab : Table V) :
  h !! il = Some (OIndexTable it) →
  h !! ll = Some (OTable ltab) →
  h !! rl = Some (OTable rtab) →
  let run := join_catalogs_py c il ll rl h in
  let again := join_catalogs_py c il ll rl run.2 in
  (∀ l o, h !! l = Some o → run.2 !! l = Some o)
  ∧ (∀ l o, h !! l = Some o → again.2 !! l = Some o)
  ∧ match join_catalogs_within c it ltab rtab with
    | Ok res =>
        (∃ l, run.1 = Ok l ∧ length h ≤ l ∧ run.2 !! l = Some (OTable res))
        ∧ (∃ l, again.1 = Ok l ∧ again.2 !! l = Some (OTable res))
    | Raise e => run.1 = Raise e ∧ again.1 = Raise e
    | MaskedPadding => run.1 = MaskedPadding ∧ again.1 = MaskedPadding
    end.
Proof.
  intros Hil Hll Hrl run again.
  destruct (join_catalogs_py_run c il ll rl h it ltab rtab Hil Hll Hrl)
    as (new1 & Hh1 & Hr1).
  fold run in Hh1, Hr1.
  assert (∀ l o, h !! l = Some o → run.2 !! l = Some o) as Hframe1.
  { intros l o Hl. rewrite Hh1. by apply lookup_app_l_Some. }
  destruct (join_catalogs_py_run c il ll rl run.2 it ltab rtab)
    as (new2 & Hh2 & Hr2); [by apply Hframe1..|].
  fold again in Hh2, Hr2.
  split; [exact Hframe1|]. split.
  { intros l o Hl. rewrite Hh2. by apply lookup_app_l_Some, Hframe1. }
  destruct (join_catalogs_within c it ltab rtab) as [res|e|]; [|done..].
  destruct Hr1 as [Hr1 Hres1], Hr2 as [Hr2 Hres2]. unfold heap in *. split.
  - exists (length h + 2). split; [done|]. split; [lia|].
    rewrite Hh1, lookup_app_r by lia.
    by replace (length h + 2 - length h) with 2 by lia.
  - exists (length run.2 + 2). split; [done|].
    rewrite Hh2, lookup_app_r by lia.
    by replace (length run.2 + 2 - length run.2) with 2 by lia.
Qed.

Lemma join_catalogs_py_pure_witness :
  let run := join_catalogs_py arcsec3_degree 2 0 1 notebook_heap in
  let again := join_catalogs_py arcsec3_degree 2 0 1 run.2 in
  (∀ l o, notebook_heap !! l = Some o → run.2 !! l = Some o)
  ∧ (∀ l o, notebook_heap !! l = Some o → again.2 !! l = Some o)
  ∧ match join_catalogs_within arcsec3_degree pos_by b_catalog y_catalog with
    | Ok res =>
        (∃ l, run.1 = Ok l ∧ length notebook_heap ≤ l
              ∧ run.2 !! l = Some (OTable res))
        ∧ (∃ l, again.1 = Ok l ∧ again.2 !! l = Some (OTable res))
    | Raise e => run.1 = Raise e ∧ again.1 = Raise e
    | MaskedPadding => run.1 = MaskedPadding ∧ again.1 = MaskedPadding
    end.
Proof.
  apply (join_catalogs_py_pure arcsec3_degree 2 0 1 notebook_heap pos_by
           b_catalog y_catalog); reflexivity.
Defined.

Example join_catalogs_py_example :
  (join_catalogs_py arcsec3_degree 2 0 1 notebook_heap).1 = Ok 5
  ∧ (join_catalogs_py arcsec3_degree 2 0 1 notebook_heap).2 !! 5
    = Some (OTable phot_ins)
  ∧ take 3 (join_catalogs_py arcsec3_degree 2 0 1 notebook_heap).2
    = notebook_heap.
Proof. repeat split; reflexivity. Qed.

(** * Further properties of [join_catalogs] *)

Lemma out_name_unshared (others : list (list string)) (table_name name : string) :
  Forall (λ other, name ∉ other) others →
  out_name others table_name name = name.
Proof.
  intros Hno. unfold out_name.
  destruct (existsb _ others) eqn:E; [|done].
  apply existsb_exists in E as (other & Hin & Hname).
  apply bool_decide_eq_true in Hname.
  rewrite Forall_forall in Hno. destruct (Hno other); [|done].
  by apply list_elem_of_In.
Qed.

Section MergedNames.
Context {V : Type}.
Implicit Types (ltab rtab res : Table V).

Lemma key_not_out_name ltab rtab (key : string) :
  key ∈ index_table_colnames →
  key ∉ left_out_names ltab rtab ++ right_out_names ltab rtab.
Proof.
  intros Hkey Hin.
  assert (has_underscore key = false) as Hplain.
  { apply elem_of_cons in Hkey as [->|Hkey]; [done|].
    apply elem_of_cons in Hkey as [->|Hkey]; [done|].
    by apply elem_of_nil in Hkey. }
  apply elem_of_app in Hin as [Hin|Hin];
    apply plain_name_kept in Hin as [_ Hothers]; try done;
    apply Forall_cons in Hothers as [Hno _]; by apply Hno.
Qed.

Lemma merged_colnames_Ok_iff ltab rtab (names : list string) :
  merged_colnames ltab rtab = Ok names ↔
  names = left_out_names ltab rtab ++ right_out_names ltab rtab
  ∧ NoDup names
  ∧ keys_free ltab rtab.
Proof.
  split.
  - intros Hn. destruct (merged_colnames_inv _ _ _ Hn) as [Hnames Hnd].
    split; [done|]. split; [done|].
    unfold merged_colnames in Hn.
    destruct (hstack_colnames index_table_colnames (colnames ltab)
                (colnames rtab)) as [[[o1 o2] o3]| |] eqn:Eh; [|done|done].
    cbn [mbind outcome_bind] in Hn.
    case_bool_decide as Hi; [|done]. case_bool_decide as Hd; [|done].
    destruct (key_columns_of_index_table _ _ _ _ _ Eh) as (Ho1 & _ & _).
    specialize (Ho1 Hi Hd).
    apply hstack_colnames_inv in Eh as (Ho1' & _ & _ & _).
    rewrite Ho1 in Ho1'. unfold index_table_colnames in Ho1'.
    cbn [fmap list_fmap] in Ho1'. injection Ho1' as Hidx Hdist.
    assert (∀ key, out_name [colnames ltab; colnames rtab] "1" key = key →
                   has_underscore key = false →
                   (key ∉ colnames ltab) ∧ (key ∉ colnames rtab)) as Hfree.
    { intros key Hkey Hplain.
      destruct (out_name_cases [colnames ltab; colnames rtab] "1" key)
        as [[_ Hothers]|Heq].
      - apply Forall_cons in Hothers as [Hl Hothers].
        by apply Forall_cons in Hothers as [Hr _].
      - rewrite Heq in Hkey.
        by rewrite <- Hkey, uniq_col_name_underscore in Hplain. }
    repeat constructor; by apply Hfree.
  - intros (-> & Hnd & Hfree).
    apply Forall_cons in Hfree as [[Hil Hir] Hfree].
    apply Forall_cons in Hfree as [[Hdl Hdr] _].
    assert (out_name [colnames ltab; colnames rtab] "1" <$> index_table_colnames
            = index_table_colnames) as Ho1.
    { unfold index_table_colnames. cbn [fmap list_fmap].
      rewrite (out_name_unshared _ "1" "index")
        by (apply Forall_cons; split; [done|by apply Forall_singleton]).
      by rewrite (out_name_unshared _ "1" "distance")
        by (apply Forall_cons; split; [done|by apply Forall_singleton]). }
    assert (NoDup (index_table_colnames
                   ++ left_out_names ltab rtab ++ right_out_names ltab rtab))
      as Hall.
    { apply NoDup_app. split; [|split; [|done]].
      - repeat constructor; [|by intros ?%elem_of_nil].
        intros Hin. apply elem_of_cons in Hin as [?|?%elem_of_nil]; done.
      - intros key Hkey. by apply key_not_out_name. }
    unfold merged_colnames, hstack_colnames. cbv zeta. rewrite Ho1.
    fold (left_out_names ltab rtab). fold (right_out_names ltab rtab).
    rewrite (bool_decide_eq_true_2 _ Hall). cbn [mbind outcome_bind].
    rewrite !bool_decide_eq_true_2; [done| |].
    + apply list_elem_of_further, list_elem_of_here.
    + apply list_elem_of_here.
Qed.
End MergedNames.

Lemma NoDup_below_length (l : list nat) (n : nat) :
  NoDup l → Forall (λ i, i < n) l → length l ≤ n.
Proof.
  intros Hnd Hlt. replace n with (length (seq 0 n)) by apply length_seq.
  apply submseteq_length, NoDup_submseteq; [done|].
  intros i Hi. rewrite Forall_forall in Hlt. specialize (Hlt i Hi).
  apply elem_of_seq. lia.
Qed.

Section PickAll.
Context {A : Type} (key : A → Candidate).

(** Rows of pairwise distinct indices are all picked, when their flags are
    set. *)
Lemma pick_all (near : A → bool) (prev : option nat) (l : list A) :
  NoDup (index_column key l) →
  Forall (λ x, near x = true) l →
  prev ∉ Some <$> index_column key l →
  pick key near prev l = l.
Proof.
  revert prev. induction l as [|x l IH]; intros prev Hnd Hnear Hprev; [done|].
  unfold index_column in *. rewrite fmap_cons in Hnd, Hprev.
  apply NoDup_cons in Hnd as [Hx Hnd].
  apply Forall_cons in Hnear as [Hnx Hnear].
  cbn [pick]. rewrite Hnx, andb_true_r.
  rewrite bool_decide_eq_false_2.
  - cbn [negb]. f_equal. apply IH; [done|done|].
    intros Hin. apply list_elem_of_fmap in Hin as (i & [= <-] & Hi). done.
  - intros ->. apply Hprev. rewrite fmap_cons. apply list_elem_of_here.
Qed.
End PickAll.

Lemma kept_all (c : Q) (it : list Candidate) :
  NoDup (index <$> it) →
  Forall (λ cand, (distance cand < c)%Q) it →
  kept c it ≡ₚ numbered it.
Proof.
  intros Hnd Hnear. unfold kept. rewrite selected_pick.
  rewrite pick_all; [apply sort_rows_perm| | |].
  - unfold index_column. rewrite sort_rows_perm.
    unfold numbered. rewrite list_fmap_compose.
    by rewrite fst_zip by (rewrite length_seq; lia).
  - rewrite sort_rows_perm. apply Forall_forall. intros cp Hcp.
    apply elem_of_numbered, list_elem_of_lookup_2 in Hcp.
    rewrite Forall_forall in Hnear. apply Qltb_lt, Hnear, Hcp.
  - intros Hin. by apply list_elem_of_fmap in Hin as (i & [=] & _).
Qed.

Section JoinExtras.
Context {V : Type}.
Implicit Types (c : Q) (it : list Candidate) (ltab rtab res : Table V).

(** X1.  When the call returns.  Let [index_table] have one row per row of
    the left table, as the callers build it, and let the right table have a
    column.  Then [join_catalogs] returns a table exactly when no column of
    the two tables is called ['index'] or ['distance'], the names [hstack]
    gives to their columns are pairwise distinct, and every index is a row
    number of the right table; the cut-off plays no part. *)
Theorem join_catalogs_returns_iff c it ltab rtab :
  length it = length (rows ltab) →
  colnames rtab ≠ [] →
  (∃ res, join_catalogs_within c it ltab rtab = Ok res) ↔
  keys_free ltab rtab
  ∧ NoDup (left_out_names ltab rtab ++ right_out_names ltab rtab)
  ∧ Forall (λ cand, index cand < length (rows rtab)) it.
Proof.
  intros Hl _. split.
  - intros [res Hjoin].
    destruct (join_catalogs_within_inv _ _ _ _ _ Hjoin) as (Hn & _ & _).
    apply merged_colnames_Ok_iff in Hn as (Hnames & Hnd & Hfree).
    rewrite Hnames in Hnd.
    split; [done|]. split; [done|].
    by eapply join_catalogs_within_Ok_inv.
  - intros (Hfree & Hnd & Hidx).
    destruct (join_catalogs_within_Ok c it ltab rtab
                (left_out_names ltab rtab ++ right_out_names ltab rtab))
      as (res & Hjoin & _); [|done|done|by exists res].
    by apply merged_colnames_Ok_iff.
Qed.

(** X2.  Let the right table have a column.  An index of [index_table]
    that is not a row number of the right table makes the call raise
    [IndexError], whatever the column names and the number of rows of the
    left table: [right_table[index_table['index']]] is evaluated first.
    When [index_table] has one row per row of the left table, this is the
    only way the call raises [IndexError]. *)
Theorem join_catalogs_index_error_iff c it ltab rtab :
  colnames rtab ≠ [] →
  (Exists (λ cand, length (rows rtab) ≤ index cand) it →
   join_catalogs_within c it ltab rtab = Raise IndexError)
  ∧ (length it = length (rows ltab) →
     join_catalogs_within c it ltab rtab = Raise IndexError →
     Exists (λ cand, length (rows rtab) ≤ index cand) it).
Proof.
  intros _.
  enough (join_catalogs_within c it ltab rtab = Raise IndexError ↔
          Exists (λ cand, length (rows rtab) ≤ index cand) it) as Hiff
    by (split; [apply Hiff|intros _; apply Hiff]).
  rewrite join_catalogs_within_unfold. unfold getitem_rows.
  destruct (mapM (λ i, rows rtab !! i) (index <$> it)) as [rs|] eqn:Ers.
  - split.
    + cbn [mbind outcome_bind rows]. unfold merged_colnames.
      destruct (hstack_colnames index_table_colnames (colnames ltab)
                  (colnames rtab)) as [[[n1 n2] n3]|e|] eqn:Eh.
      * cbn [mbind outcome_bind].
        destruct ((length it =? length (rows ltab)) && (length it =? length rs));
          [|done].
        repeat case_bool_decide; done.
      * unfold hstack_colnames in Eh. case_bool_decide; [done|].
        injection Eh as <-. done.
      * done.
    + intros Hex. exfalso. apply mapM_Some in Ers.
      apply Exists_exists in Hex as (cand & Hin & Hge).
      apply list_elem_of_lookup in Hin as [i Hi].
      assert ((index <$> it) !! i = Some (index cand)) as Hi'
        by (by rewrite list_lookup_fmap, Hi).
      destruct (Forall2_lookup_l _ _ _ _ _ Ers Hi') as (r & _ & Hr).
      apply lookup_lt_Some in Hr. lia.
  - split; [|done]. intros _.
    apply mapM_None in Ers. apply Exists_exists in Ers as (i & Hi & Hnone).
    apply list_elem_of_fmap in Hi as (cand & -> & Hc).
    apply Exists_exists. exists cand. split; [done|].
    by apply lookup_ge_None in Hnone.
Qed.

(** X3.  The result has one column per column of the two tables, and none
    called ['index'] or ['distance']. *)
Theorem join_catalogs_drops_keys c it ltab rtab res :
  join_catalogs_within c it ltab rtab = Ok res →
  ("index" ∉ colnames res)
  ∧ ("distance" ∉ colnames res)
  ∧ length (colnames res) = length (colnames ltab) + length (colnames rtab).
Proof.
  intros Hjoin.
  destruct (join_catalogs_within_inv _ _ _ _ _ Hjoin) as (Hn & _ & _).
  apply merged_colnames_Ok_iff in Hn as (-> & _ & _).
  split; [|split].
  - apply key_not_out_name, list_elem_of_here.
  - apply key_not_out_name, list_elem_of_further, list_elem_of_here.
  - unfold left_out_names, right_out_names.
    by rewrite length_app, !length_fmap.
Qed.

(** X4.  Tables stay tables: when every row of the two tables has one cell
    per column, so has every row of the result. *)
Theorem join_catalogs_rows_complete c it ltab rtab res :
  join_catalogs_within c it ltab rtab = Ok res →
  Forall (λ l, length l = length (colnames ltab)) (rows ltab) →
  Forall (λ r, length r = length (colnames rtab)) (rows rtab) →
  Forall (λ row, length row = length (colnames res)) (rows res).
Proof.
  intros Hjoin Hlw Hrw.
  destruct (join_catalogs_within_inv _ _ _ _ _ Hjoin) as (Hn & _ & Hrows).
  apply merged_colnames_Ok_iff in Hn as (Hnames & _ & _).
  apply Forall_forall. intros row Hrow.
  apply list_elem_of_lookup in Hrow as [i Hi].
  destruct (Forall2_lookup_r _ _ _ _ _ Hrows Hi)
    as (cp & _ & _ & l & r & Hl & Hr & ->).
  rewrite Forall_forall in Hlw, Hrw.
  rewrite Hnames. unfold left_out_names, right_out_names.
  rewrite !length_app, !length_fmap.
  rewrite (Hlw l), (Hrw r); [done| |]; by eapply list_elem_of_lookup_2.
Qed.

(** X5.  When [index_table] has one row per row of the left table and the
    right table has a column, the merged catalog has at most as many rows as
    either table: the count the notebook prints as matched stars [of] the
    stars of the right table never is the larger one. *)
Theorem join_catalogs_row_count c it ltab rtab res :
  length it = length (rows ltab) →
  colnames rtab ≠ [] →
  join_catalogs_within c it ltab rtab = Ok res →
  length (rows res) ≤ length (rows ltab)
  ∧ length (rows res) ≤ length (rows rtab).
Proof.
  intros Hl _ Hjoin.
  destruct (join_catalogs_within_inv _ _ _ _ _ Hjoin) as (_ & _ & Hrows).
  pose proof (join_catalogs_within_Ok_inv _ _ _ _ _ Hjoin) as Hidx.
  apply Forall2_length in Hrows. rewrite <- Hrows. split.
  - rewrite <- Hl, <- (length_fmap snd).
    apply NoDup_below_length; [apply kept_positions_NoDup|].
    apply Forall_fmap, Forall_forall. intros cp Hcp.
    apply elem_of_kept_numbered, elem_of_numbered in Hcp.
    by apply lookup_lt_Some in Hcp.
  - rewrite <- (length_fmap (index ∘ fst)).
    apply NoDup_below_length.
    + apply StronglySorted_lt_NoDup, kept_ascending.
    + apply Forall_fmap, Forall_forall. intros cp Hcp.
      apply elem_of_kept_numbered, elem_of_numbered in Hcp.
      rewrite Forall_forall in Hidx. apply Hidx.
      by eapply list_elem_of_lookup_2.
Qed.

(** X6.  Nothing is lost when the match is one to one and close.  Let
    [index_table] have one row per row of the left table and the right table
    a column: if no two rows of [index_table] name the same right row and
    every distance is below the cut-off, the merged catalog has one row per
    left row, and every left row makes a merged row. *)
Theorem join_catalogs_keeps_all c it ltab rtab res :
  length it = length (rows ltab) →
  colnames rtab ≠ [] →
  join_catalogs_within c it ltab rtab = Ok res →
  NoDup (index <$> it) →
  Forall (λ cand, (distance cand < c)%Q) it →
  length (rows res) = length (rows ltab)
  ∧ kept c it ≡ₚ numbered it
  ∧ Forall2 (merged_from it ltab rtab) (kept c it) (rows res).
Proof.
  intros Hl _ Hjoin Hnd Hnear.
  destruct (join_catalogs_within_inv _ _ _ _ _ Hjoin) as (_ & _ & Hrows).
  pose proof (kept_all c it Hnd Hnear) as Hperm.
  split; [|done].
  apply Forall2_length in Hrows.
  by rewrite <- Hrows, Hperm, numbered_length.
Qed.

(** X7.  A left row makes at most one merged row: the merged rows are built,
    in order, from kept candidates whose left row numbers are pairwise
    distinct. *)
Theorem join_catalogs_left_used_once c it ltab rtab res :
  join_catalogs_within c it ltab rtab = Ok res →
  Forall2 (merged_from it ltab rtab) (kept c it) (rows res)
  ∧ NoDup (kept c it).*2.
Proof.
  intros Hjoin. split; [by apply join_catalogs_within_inv|].
  apply kept_positions_NoDup.
Qed.

(** X8.  A column whose name is no column name of the other table keeps its
    name: its cell in a merged row is found under the name it had, as the
    notebook reads ['mag_b-y'] and ['b-y'] after the second call. *)
Theorem join_catalogs_keeps_unshared_names c it ltab rtab res (name : string) :
  join_catalogs_within c it ltab rtab = Ok res →
  Forall (λ l, length l = length (colnames ltab)) (rows ltab) →
  Forall (λ r, length r = length (colnames rtab)) (rows rtab) →
  Forall2 (λ cp row,
     ∃ l r, rows ltab !! cp.2 = Some l
            ∧ rows rtab !! index cp.1 = Some r
            ∧ (name ∈ colnames ltab → name ∉ colnames rtab →
               is_Some (field (colnames ltab) l name)
               ∧ field (colnames res) row name = field (colnames ltab) l name)
            ∧ (name ∈ colnames rtab → name ∉ colnames ltab →
               is_Some (field (colnames rtab) r name)
               ∧ field (colnames res) row name = field (colnames rtab) r name))
    (kept c it) (rows res).
Proof.
  intros Hjoin Hlw Hrw.
  destruct (join_catalogs_within_inv _ _ _ _ _ Hjoin) as (Hn & _ & Hrows).
  pose proof Hn as Hfree.
  apply merged_colnames_Ok_iff in Hfree as (_ & _ & Hfree).
  eapply Forall2_impl; [exact Hrows|].
  intros cp row (_ & l & r & Hl & Hr & ->).
  exists l, r. split; [done|]. split; [done|].
  destruct (exposes_both_intro ltab rtab res l r Hn) as (Hleft & Hright & _).
  { rewrite Forall_forall in Hlw. apply Hlw. by eapply list_elem_of_lookup_2. }
  { rewrite Forall_forall in Hrw. apply Hrw. by eapply list_elem_of_lookup_2. }
  split.
  - intros Hin Hnot. destruct (Hleft name Hin) as [Hsome Heq].
    split; [done|]. rewrite <- Heq. f_equal.
    symmetry. apply out_name_unshared.
    apply Forall_cons. split; [|by apply Forall_singleton].
    intros Hk. unfold keys_free in Hfree. rewrite Forall_forall in Hfree.
    by destruct (Hfree name Hk).
  - intros Hin Hnot. destruct (Hright name Hin) as [Hsome Heq].
    split; [done|]. rewrite <- Heq. f_equal.
    symmetry. apply out_name_unshared.
    apply Forall_cons. split; [|by apply Forall_singleton].
    intros Hk. unfold keys_free in Hfree. rewrite Forall_forall in Hfree.
    by destruct (Hfree name Hk).
Qed.
End JoinExtras.

(** * The renaming loop *)

(** ** [str.replace] for a pattern of two characters *)

Lemma string_ind2 (P : string → Prop) :
  P "" →
  (∀ c, P (String c "")) →
  (∀ c c' s, P s → P (String c' s) → P (String c (String c' s))) →
  ∀ s, P s.
Proof.
  intros Hnil Hone Hstep s.
  assert (P s ∧ ∀ c, P (String c s)) as [Hs _]; [|done].
  induction s as [|c' s [IHs IHc]]; [by split|].
  split; [apply IHc|]. intros c. apply Hstep; [done|apply IHc].
Qed.

Lemma has_pair_cons (x y c : ascii) (s : string) :
  has_pair x y (String c s)
  = match s with
    | EmptyString => false
    | String d _ => (bool_decide (c = x) && bool_decide (d = y)) || has_pair x y s
    end.
Proof. by destruct s. Qed.

Lemma has_pair_tail (x y c : ascii) (s : string) :
  has_pair x y (String c s) = false → has_pair x y s = false.
Proof.
  rewrite has_pair_cons. destruct s as [|d s]; [done|].
  by intros [_ ?]%orb_false_elim.
Qed.

Lemma append_cons (c : ascii) (s t : string) :
  String c s +:+ t = String c (s +:+ t).
Proof. reflexivity. Qed.

Lemma append_nil (t : string) : "" +:+ t = t.
Proof. reflexivity. Qed.

Lemma two_chars_app (a b : ascii) (t : string) :
  two_chars a b +:+ t = String a (String b t).
Proof. reflexivity. Qed.

Section Replace2.
Context (a b : ascii) (new : string).


Lemma str_replace_one (c : ascii) :
  str_replace (two_chars a b) new (String c "") = String c "".
Proof.
  unfold str_replace, two_chars. cbn. by destruct (ascii_dec a c).
Qed.

Lemma str_replace_cons2 (c c' : ascii) (s : string) :
  str_replace (two_chars a b) new (String c (String c' s))
  = if bool_decide (c = a) && bool_decide (c' = b)
    then new +:+ str_replace (two_chars a b) new s
    else String c (str_replace (two_chars a b) new (String c' s)).
Proof.
  unfold str_replace.
  change (replace_from (two_chars a b) new 0 (String c (String c' s)))
    with (if String.prefix (two_chars a b) (String c (String c' s))
          then new +:+ replace_from (two_chars a b) new 0 s
          else String c (replace_from (two_chars a b) new 0 (String c' s))).
  assert (String.prefix (two_chars a b) (String c (String c' s))
          = bool_decide (c = a) && bool_decide (c' = b)) as ->; [|done].
  unfold two_chars. cbn [String.prefix].
  destruct (ascii_dec a c) as [<-|Hc].
  - rewrite (bool_decide_eq_true_2 (a = a)) by done. cbn [andb].
    destruct (ascii_dec b c') as [<-|Hc'].
    + rewrite bool_decide_eq_true_2 by done. by destruct s.
    + by rewrite bool_decide_eq_false_2.
  - by rewrite (bool_decide_eq_false_2 (c = a)).
Qed.

(** Without an occurrence nothing is replaced. *)
Lemma str_replace_absent (s : string) :
  has_pair a b s = false → str_replace (two_chars a b) new s = s.
Proof.
  induction s as [| |c c' s _ IH] using string_ind2; intros Hno.
  - done.
  - apply str_replace_one.
  - rewrite str_replace_cons2. rewrite has_pair_cons in Hno.
    apply orb_false_elim in Hno as [-> Hno]. by rewrite IH.
Qed.
End Replace2.

Section ReplaceSameHead.
Context (a b b' : ascii) (Hb : b' ≠ b) (Ha : b' ≠ a).


(** The first character stays, since the pattern and its replacement start
    with the same one. *)
Lemma str_replace_head (c : ascii) (s : string) :
  ∃ t, str_replace (two_chars a b) (two_chars a b') (String c s) = String c t.
Proof.
  destruct s as [|c' s].
  - rewrite str_replace_one. by eexists.
  - rewrite str_replace_cons2.
    destruct (bool_decide (c = a)) eqn:Ec; cbn [andb]; [|by eexists].
    apply bool_decide_eq_true in Ec as ->.
    destruct (bool_decide (c' = b)); by eexists.
Qed.

(** After the replacement no occurrence is left. *)
Lemma str_replace_clean (s : string) :
  has_pair a b (str_replace (two_chars a b) (two_chars a b') s) = false.
Proof.
  induction s as [|c|c c' s IHs IHc] using string_ind2.
  - done.
  - by rewrite str_replace_one.
  - rewrite str_replace_cons2.
    destruct (bool_decide (c = a) && bool_decide (c' = b)) eqn:E.
    + rewrite two_chars_app, has_pair_cons.
      rewrite (bool_decide_eq_false_2 (b' = b)) by done.
      rewrite andb_false_r. cbn [orb]. rewrite has_pair_cons.
      destruct (str_replace (two_chars a b) (two_chars a b') s) eqn:Es; [done|].
      rewrite (bool_decide_eq_false_2 (b' = a)) by done. done.
    + destruct (str_replace_head c' s) as [t Ht]. rewrite Ht in *.
      rewrite has_pair_cons, E. done.
Qed.

(** The replacement makes no occurrence of another pair [x], [y], unless
    it is the pair put in. *)
Lemma str_replace_keeps_absent (x y : ascii) (s : string) :
  ¬ (a = x ∧ b' = y) → b' ≠ x →
  has_pair x y s = false →
  has_pair x y (str_replace (two_chars a b) (two_chars a b') s) = false.
Proof.
  intros Hxy Hx.
  induction s as [|c|c c' s IHs IHc] using string_ind2; intros Hno.
  - done.
  - by rewrite str_replace_one.
  - rewrite str_replace_cons2.
    pose proof (has_pair_tail _ _ _ _ Hno) as Hno1.
    pose proof (has_pair_tail _ _ _ _ Hno1) as Hno2.
    destruct (bool_decide (c = a) && bool_decide (c' = b)) eqn:E.
    + rewrite two_chars_app, has_pair_cons.
      assert (bool_decide (a = x) && bool_decide (b' = y) = false) as ->.
      { apply andb_false_iff.
        destruct (decide (a = x)) as [Hax|Hax].
        - right. apply bool_decide_eq_false_2. intros Hby. by apply Hxy.
        - left. by apply bool_decide_eq_false_2. }
      cbn [orb]. rewrite has_pair_cons.
      destruct (str_replace (two_chars a b) (two_chars a b') s) eqn:Es; [done|].
      rewrite (bool_decide_eq_false_2 (b' = x)) by done.
      by apply IHs.
    + destruct (str_replace_head c' s) as [t Ht]. rewrite Ht in *.
      rewrite has_pair_cons. rewrite has_pair_cons in Hno.
      apply orb_false_elim in Hno as [-> _]. by apply IHc.
Qed.

(** The replacement goes through a concatenation, when the second part
    does not start with the second character of the pattern. *)
Lemma str_replace_app (s t : string) :
  match t with EmptyString => True | String d _ => d ≠ b end →
  str_replace (two_chars a b) (two_chars a b') (s +:+ t)
  = str_replace (two_chars a b) (two_chars a b') s
    +:+ str_replace (two_chars a b) (two_chars a b') t.
Proof.
  intros Ht.
  induction s as [|c|c c' s IHs IHc] using string_ind2.
  - done.
  - rewrite str_replace_one, !append_cons, !append_nil.
    destruct t as [|d t]; [by rewrite str_replace_one|].
    rewrite str_replace_cons2.
    by rewrite (bool_decide_eq_false_2 (d = b)), andb_false_r.
  - rewrite !append_cons, !str_replace_cons2.
    destruct (bool_decide (c = a) && bool_decide (c' = b)).
    + by rewrite IHs, !two_chars_app, !append_cons.
    + rewrite append_cons in IHc. by rewrite IHc, append_cons.
Qed.
End ReplaceSameHead.

(** ** The new names *)

Lemma new_name_two_chars (col : string) :
  new_name col
  = str_replace (two_chars "_" "3") (two_chars "_" "y")
      (str_replace (two_chars "_" "2") (two_chars "_" "b") col).
Proof. reflexivity. Qed.

Lemma new_name_clean (col : string) :
  has_pair "_" "2" (new_name col) = false
  ∧ has_pair "_" "3" (new_name col) = false.
Proof.
  rewrite new_name_two_chars. split.
  - apply (str_replace_keeps_absent "_" "3" "y" "_" "2");
      [by intros [_ [=]]|done|].
    by apply (str_replace_clean "_" "2" "b").
  - by apply (str_replace_clean "_" "3" "y").
Qed.

Lemma new_name_absent (col : string) :
  has_pair "_" "2" col = false → has_pair "_" "3" col = false →
  new_name col = col.
Proof.
  intros H2 H3. rewrite new_name_two_chars.
  by rewrite (str_replace_absent "_" "2" _ col H2),
             (str_replace_absent "_" "3" _ col H3).
Qed.

Lemma new_name_idemp (col : string) : new_name (new_name col) = new_name col.
Proof. destruct (new_name_clean col). by apply new_name_absent. Qed.

Lemma new_name_suffix_2 (col : string) :
  new_name (uniq_col_name col "2") = new_name col +:+ "_b".
Proof.
  rewrite !new_name_two_chars. unfold uniq_col_name.
  rewrite (str_replace_app "_" "2" "b"); [|done].
  rewrite (str_replace_app "_" "3" "y"); [|done].
  done.
Qed.

Lemma new_name_suffix_3 (col : string) :
  new_name (uniq_col_name col "3") = new_name col +:+ "_y".
Proof.
  rewrite !new_name_two_chars. unfold uniq_col_name.
  rewrite (str_replace_app "_" "2" "b"); [|done].
  rewrite (str_replace_app "_" "3" "y"); [|done].
  done.
Qed.

(** ** The loop *)

Lemma tidy_loop_outcome (cols names : list string) :
  (∃ names', tidy_loop cols names = Ok names')
  ∨ tidy_loop cols names = Raise KeyError.
Proof.
  revert names. induction cols as [|col cols IH]; intros names.
  - left. by eexists.
  - cbn [tidy_loop]. unfold rename_column.
    repeat case_bool_decide; cbn [mbind outcome_bind]; try (by right);
      apply IH.
Qed.

Lemma tidy_loop_runs (pre cols : list string) :
  NoDup (pre ++ cols) →
  NoDup (pre ++ (new_name <$> cols)) →
  tidy_loop cols (pre ++ cols) = Ok (pre ++ (new_name <$> cols)).
Proof.
  revert pre. induction cols as [|col cols IH]; intros pre Hnd Hnew; [done|].
  cbn [tidy_loop]. unfold rename_column.
  rewrite bool_decide_eq_true_2
    by (apply elem_of_app; right; apply list_elem_of_here).
  rewrite fmap_cons in Hnew.
  case_bool_decide as Hsame.
  - cbn [mbind outcome_bind]. rewrite fmap_cons, <- Hsame.
    rewrite <- Hsame in Hnew.
    specialize (IH (pre ++ [col])). rewrite <- !app_assoc in IH.
    by apply IH.
  - assert (new_name col ∉ pre ++ col :: cols) as Hfresh.
    { intros Hin. apply elem_of_app in Hin as [Hin|Hin].
      - apply NoDup_app in Hnew as (_ & Hdisj & _).
        apply (Hdisj _ Hin), list_elem_of_here.
      - apply elem_of_cons in Hin as [Hin|Hin]; [by apply Hsame|].
        apply NoDup_app in Hnew as (_ & _ & Hnew).
        apply NoDup_cons in Hnew as [Hnew _]. apply Hnew.
        apply list_elem_of_fmap. exists (new_name col).
        by rewrite new_name_idemp. }
    rewrite bool_decide_eq_false_2 by done.
    cbn [mbind outcome_bind]. rewrite rename_in_place by done.
    rewrite fmap_cons.
    specialize (IH (pre ++ [new_name col])). rewrite <- !app_assoc in IH.
    apply IH; [|done]. cbn [app].
    apply NoDup_app in Hnd as (Hp & Hpc & Hc).
    apply NoDup_cons in Hc as [Hc1 Hc2].
    apply NoDup_app. split; [done|]. split.
    + intros x Hx Hin. apply elem_of_cons in Hin as [->|Hin].
      * apply Hfresh, elem_of_app. by left.
      * apply (Hpc x Hx). by apply list_elem_of_further.
    + apply NoDup_cons. split; [|done].
      intros Hin. apply Hfresh, elem_of_app. right.
      by apply list_elem_of_further.
Qed.

Lemma field_fmap_names {V : Type} (f : string → string) (names : list string)
    (row : list V) (name : string) :
  NoDup (f <$> names) → name ∈ names →
  field (f <$> names) row (f name) = field names row name.
Proof.
  intros Hnd Hin.
  destruct (field_first names row name Hin) as (i & Hi & ->).
  apply field_lookup; [done|]. by rewrite list_lookup_fmap, Hi.
Qed.

Lemma tidied_shared_fields {V : Type} (ltab rtab res res' : Table V)
    (l r : list V) (name : string) :
  merged_colnames ltab rtab = Ok (colnames res) →
  colnames res' = new_name <$> colnames res →
  NoDup (colnames res') →
  length l = length (colnames ltab) →
  length r = length (colnames rtab) →
  name ∈ colnames ltab → name ∈ colnames rtab →
  is_Some (field (colnames ltab) l name)
  ∧ is_Some (field (colnames rtab) r name)
  ∧ field (colnames res') (l ++ r) (new_name name +:+ "_b")
    = field (colnames ltab) l name
  ∧ field (colnames res') (l ++ r) (new_name name +:+ "_y")
    = field (colnames rtab) r name.
Proof.
  intros Hn Hnames' Hnd' Hl Hr Hinl Hinr.
  destruct (merged_colnames_inv _ _ _ Hn) as [Hnames Hnd].
  assert (uniq_col_name name "2" ∈ colnames res) as Hin2.
  { rewrite Hnames. apply elem_of_app. left.
    apply list_elem_of_fmap. exists name. split; [|done].
    symmetry. apply out_name_shared, Exists_cons_tl, Exists_cons_hd, Hinr. }
  assert (uniq_col_name name "3" ∈ colnames res) as Hin3.
  { rewrite Hnames. apply elem_of_app. right.
    apply list_elem_of_fmap. exists name. split; [|done].
    symmetry. apply out_name_shared, Exists_cons_tl, Exists_cons_hd, Hinl. }
  destruct (exposes_both_intro ltab rtab res l r Hn Hl Hr)
    as (Hleft & Hright & Hshared).
  destruct (Hshared name Hinl Hinr) as (_ & H2 & H3).
  split; [apply Hleft, Hinl|]. split; [apply Hright, Hinr|].
  rewrite Hnames' in *.
  rewrite <- new_name_suffix_2, <- new_name_suffix_3.
  by rewrite !field_fmap_names by done.
Qed.

Lemma merged_row_length {V : Type} (ltab rtab : Table V) (names : list string)
    (l r : list V) :
  merged_colnames ltab rtab = Ok names →
  length l = length (colnames ltab) →
  length r = length (colnames rtab) →
  length (l ++ r) = length names.
Proof.
  intros Hn Hl Hr. apply merged_colnames_inv in Hn as [-> _].
  by rewrite !length_app, !length_fmap, Hl, Hr.
Qed.

Section TidyExtras.
Context {V : Type}.
Implicit Types (c : Q) (it : list Candidate) (t ltab rtab res : Table V).

(** X9.  On a table with pairwise distinct column names the renaming loop
    returns exactly when the new names are pairwise distinct, and then every
    column has its new name and the rows are untouched; otherwise it raises
    [KeyError]. *)
Theorem tidy_column_names_returns_iff t :
  NoDup (colnames t) →
  tidy_column_names t
  = if decide (NoDup (new_name <$> colnames t))
    then Ok {| colnames := new_name <$> colnames t; rows := rows t |}
    else Raise KeyError.
Proof.
  intros Hnd. case_decide as Hnew.
  - unfold tidy_column_names.
    pose proof (tidy_loop_runs [] (colnames t) Hnd Hnew) as Hrun.
    cbn [app] in Hrun. by rewrite Hrun.
  - unfold tidy_column_names.
    destruct (tidy_loop_outcome (colnames t) (colnames t)) as [[names' Hok]|He];
      [|by rewrite He].
    destruct (tidy_loop_inv [] (colnames t) names' Hnd Hok) as [-> Hnd'].
    done.
Qed.

(** X10.  Running the renaming loop again changes nothing: on the table it
    returned, it returns the same table. *)
Theorem tidy_column_names_idempotent t t' :
  NoDup (colnames t) →
  tidy_column_names t = Ok t' →
  tidy_column_names t' = Ok t'.
Proof.
  intros Hnd Ht.
  destruct (tidy_column_names_inv t t' Hnd Ht) as (Hnames & Hnd' & _).
  unfold tidy_column_names.
  assert (new_name <$> colnames t' = colnames t') as Hfix.
  { rewrite Hnames, <- list_fmap_compose. apply list_fmap_ext.
    intros i col _. apply new_name_idemp. }
  pose proof (tidy_loop_runs [] (colnames t')) as Hrun. cbn [app] in Hrun.
  rewrite Hrun; [|done|by rewrite Hfix].
  cbn [mbind outcome_bind]. rewrite Hfix. by destruct t'.
Qed.

(** X11.  After the call and the renaming loop, a column name the two
    tables share names two columns of the merged table, with the suffixes
    [_b] and [_y] on its own new name: they hold the cell of the left row and
    the cell of the right row. *)
Theorem tidy_suffixes_b_y c it ltab rtab res res' (name : string) :
  join_catalogs_within c it ltab rtab = Ok res →
  tidy_column_names res = Ok res' →
  Forall (λ l, length l = length (colnames ltab)) (rows ltab) →
  Forall (λ r, length r = length (colnames rtab)) (rows rtab) →
  name ∈ colnames ltab → name ∈ colnames rtab →
  Forall2 (λ cp row,
     ∃ l r, rows ltab !! cp.2 = Some l
            ∧ rows rtab !! index cp.1 = Some r
            ∧ is_Some (field (colnames ltab) l name)
            ∧ is_Some (field (colnames rtab) r name)
            ∧ field (colnames res') row (new_name name +:+ "_b")
              = field (colnames ltab) l name
            ∧ field (colnames res') row (new_name name +:+ "_y")
              = field (colnames rtab) r name)
    (kept c it) (rows res').
Proof.
  intros Hjoin Htidy Hlw Hrw Hinl Hinr.
  destruct (join_catalogs_within_inv _ _ _ _ _ Hjoin) as (Hn & _ & Hrows).
  destruct (merged_colnames_inv _ _ _ Hn) as [_ Hnd].
  destruct (tidy_column_names_inv res res' Hnd Htidy) as (Hnames' & Hnd' & ->).
  eapply Forall2_impl; [exact Hrows|].
  intros cp row (_ & l & r & Hl & Hr & ->).
  exists l, r. split; [done|]. split; [done|].
  apply (tidied_shared_fields ltab rtab res res'); try done.
  - rewrite Forall_forall in Hlw. apply Hlw. by eapply list_elem_of_lookup_2.
  - rewrite Forall_forall in Hrw. apply Hrw. by eapply list_elem_of_lookup_2.
Qed.
End TidyExtras.

(** * The cells around [join_catalogs] *)

Lemma field_find {V : Type} (names : list string) (row : list V)
    (name n : string) (i : nat) :
  list_find (λ x, x = name) names = Some (i, n) →
  field names row name = row !! i.
Proof. intros Hfind. unfold field. by rewrite Hfind. Qed.

Lemma list_find_name (names : list string) (name : string) :
  name ∈ names →
  ∃ i, list_find (λ x, x = name) names = Some (i, name) ∧ i < length names.
Proof.
  intros Hin.
  destruct (list_find_elem_of (λ n, n = name) names name Hin eq_refl)
    as [[i n] Hfind].
  pose proof Hfind as Hspec.
  apply list_find_Some in Hspec as (Hi & -> & _).
  exists i. split; [done|]. by eapply lookup_lt_Some.
Qed.

Lemma list_find_no_name (names : list string) (name : string) :
  name ∉ names → list_find (λ x, x = name) names = None.
Proof.
  intros Hno. apply list_find_None, Forall_forall. by intros x Hx ->.
Qed.

Lemma filter_disjoint_length {A : Type} (P Q : A → Prop)
    `{!∀ x, Decision (P x)} `{!∀ x, Decision (Q x)} (l : list A) :
  (∀ x, P x → Q x → False) →
  length (filter P l) + length (filter Q l) ≤ length l.
Proof.
  intros Hdisj. induction l as [|x l IH]; [done|].
  rewrite !filter_cons.
  destruct (decide (P x)) as [HP|HP], (decide (Q x)) as [HQ|HQ]; cbn;
    [by destruct (Hdisj x)|lia..].
Qed.

Section CellFacts.
Context {V : Type} `{!EqDecision V}.
Implicit Types (t p : Table V).

Lemma getitem_column_Ok t (name : string) :
  name ∈ colnames t →
  Forall (λ row, length row = length (colnames t)) (rows t) →
  ∃ i col, list_find (λ x, x = name) (colnames t) = Some (i, name)
           ∧ getitem_column t name = Ok col
           ∧ Forall2 (λ row v, row !! i = Some v) (rows t) col.
Proof.
  intros Hin Hwf. destruct (list_find_name _ _ Hin) as (i & Hfind & Hi).
  unfold getitem_column. rewrite Hfind.
  destruct (mapM (λ row : list V, row !! i) (rows t)) as [col|] eqn:Em.
  - exists i, col. split; [done|]. split; [done|]. by apply mapM_Some.
  - exfalso. apply mapM_None, Exists_exists in Em as (row & Hrow & Hnone).
    rewrite Forall_forall in Hwf. specialize (Hwf row Hrow).
    apply lookup_ge_None in Hnone. lia.
Qed.

Lemma getitem_column_missing t (name : string) :
  name ∉ colnames t → getitem_column t name = Raise KeyError.
Proof.
  intros Hno. unfold getitem_column. by rewrite list_find_no_name.
Qed.

Lemma masked_filter (P : list V → Prop) `{!∀ row, Decision (P row)}
    (l : list (list V)) (mask : list bool) :
  Forall2 (λ row b, b = true ↔ P row) l mask →
  (filter (λ rb : list V * bool, rb.2 = true) (zip l mask)).*1 = filter P l.
Proof.
  induction 1 as [|row b l mask Hb _ IH]; [done|].
  cbn [zip zip_with]. rewrite masked_cons, filter_cons, IH.
  destruct b; case_decide as Hd; try done.
  - destruct Hd. by apply Hb.
  - assert (false = true) by (by apply Hb). done.
Qed.

(** The rows [select_eq] keeps, and when it raises. *)
Lemma select_eq_rows t (name : string) (value : V) :
  Forall (λ row, length row = length (colnames t)) (rows t) →
  select_eq t name value
  = if decide (name ∈ colnames t)
    then Ok {| colnames := colnames t;
               rows := filter (λ row, field (colnames t) row name = Some value)
                         (rows t) |}
    else Raise KeyError.
Proof.
  intros Hwf. unfold select_eq. case_decide as Hin.
  - destruct (getitem_column_Ok t name Hin Hwf) as (i & col & Hfind & -> & Hcol).
    cbn [mbind outcome_bind]. unfold getitem_mask.
    rewrite length_fmap, <- (Forall2_length _ _ _ Hcol), Nat.eqb_refl.
    cbn [mbind outcome_bind]. do 2 f_equal.
    apply masked_filter. apply Forall2_fmap_r.
    eapply Forall2_impl; [exact Hcol|]. cbn beta. intros row v Hv.
    rewrite (field_find _ row name name i Hfind), Hv. unfold compose.
    rewrite bool_decide_eq_true. split; [by intros ->|by intros [= ->]].
  - by rewrite getitem_column_missing.
Qed.

(** X12.  Telling the stars of two images apart: the rows selected for two
    different values of a column are rows of the catalog with these values,
    no row is selected for both, and the two selections together have at
    most as many rows as the catalog, which the notebook prints. *)
Theorem select_eq_split t b y (name : string) (v1 v2 : V) :
  Forall (λ row, length row = length (colnames t)) (rows t) →
  select_eq t name v1 = Ok b →
  select_eq t name v2 = Ok y →
  v1 ≠ v2 →
  colnames b = colnames t ∧ colnames y = colnames t
  ∧ rows b `sublist_of` rows t ∧ rows y `sublist_of` rows t
  ∧ Forall (λ row, field (colnames t) row name = Some v1) (rows b)
  ∧ Forall (λ row, field (colnames t) row name = Some v2) (rows y)
  ∧ (∀ row, row ∈ rows b → row ∉ rows y)
  ∧ length (rows b) + length (rows y) ≤ length (rows t).
Proof.
  intros Hwf Hb Hy Hne.
  rewrite select_eq_rows in Hb, Hy by done.
  case_decide as Hin; [|done].
  injection Hb as <-. injection Hy as <-. cbn [colnames rows].
  split; [done|]. split; [done|].
  split; [apply sublist_filter|]. split; [apply sublist_filter|].
  split; [apply Forall_forall; by intros row [? _]%list_elem_of_filter|].
  split; [apply Forall_forall; by intros row [? _]%list_elem_of_filter|].
  split.
  - intros row [H1 _]%list_elem_of_filter [H2 _]%list_elem_of_filter.
    congruence.
  - apply filter_disjoint_length. intros row H1 H2. congruence.
Qed.

End CellFacts.

Section ColourFacts.
Context {V : Type} `{!EqDecision V}.
Implicit Types (t p : Table V).

Lemma setitem_column_rows t t' (name : string) (col : list V) :
  colnames t ≠ [] →
  Forall (λ row, length row = length (colnames t)) (rows t) →
  setitem_column t name col = Ok t' →
  length col = length (rows t)
  ∧ length (rows t') = length (rows t)
  ∧ ∀ k row v row',
      rows t !! k = Some row → col !! k = Some v → rows t' !! k = Some row' →
      field (colnames t') row' name = Some v
      ∧ ∀ n, n ≠ name → field (colnames t') row' n = field (colnames t) row n.
Proof.
  intros Hne Hwf. unfold setitem_column.
  destruct (colnames t) as [|n0 ns] eqn:En; [done|]. rewrite <- En in *.
  clear Hne En n0 ns.
  case_bool_decide as Hlen; [|done].
  destruct (list_find (λ n, n = name) (colnames t)) as [[i m]|] eqn:Ef.
  - intros [= <-]. cbn [colnames rows]. split; [done|].
    split; [rewrite length_zip_with; lia|].
    intros k row v row' Hrow Hv Hrow'.
    apply lookup_zip_with_Some in Hrow' as (row0 & v0 & -> & Hrow0 & Hv0).
    assert (row0 = row) as -> by congruence.
    assert (v0 = v) as -> by congruence.
    pose proof Ef as Hspec. apply list_find_Some in Hspec as (Hi & -> & _).
    rewrite Forall_forall in Hwf.
    assert (length row = length (colnames t)) as Hrowlen
      by (apply Hwf; by eapply list_elem_of_lookup_2).
    split.
    + rewrite (field_find _ _ name name i Ef).
      apply list_lookup_insert_eq. apply lookup_lt_Some in Hi. lia.
    + intros n Hn. unfold field.
      destruct (list_find (λ x, x = n) (colnames t)) as [[j m]|] eqn:En;
        [|done].
      cbn. apply list_lookup_insert_ne. intros <-.
      apply list_find_Some in En as (Hj & -> & _). congruence.
  - intros [= <-]. cbn [colnames rows]. split; [done|].
    split; [rewrite length_zip_with; lia|].
    intros k row v row' Hrow Hv Hrow'.
    apply lookup_zip_with_Some in Hrow' as (row0 & v0 & -> & Hrow0 & Hv0).
    assert (row0 = row) as -> by congruence.
    assert (v0 = v) as -> by congruence.
    rewrite Forall_forall in Hwf.
    assert (length row = length (colnames t)) as Hrowlen
      by (apply Hwf; by eapply list_elem_of_lookup_2).
    split.
    + unfold field. rewrite list_find_app_r by done. cbn.
      rewrite decide_True by done. cbn.
      rewrite <- Hrowlen. by rewrite list_lookup_middle.
    + intros n Hn. unfold field.
      destruct (list_find (λ x, x = n) (colnames t)) as [[j m]|] eqn:En.
      * rewrite (list_find_app_l _ _ _ _ _ En). cbn.
        apply lookup_app_l. apply list_find_Some in En as (Hj & _ & _).
        apply lookup_lt_Some in Hj. lia.
      * rewrite list_find_app_r by done. cbn.
        by rewrite decide_False by congruence.
Qed.

(** The cells of the colour, row by row. *)
Lemma colour_column_rows (sub : V → V → V) p t :
  Forall (λ row, length row = length (colnames p)) (rows p) →
  colour_column sub p = Ok t →
  length (rows t) = length (rows p)
  ∧ ∀ k row row',
      rows p !! k = Some row → rows t !! k = Some row' →
      ∃ vb vy, field (colnames p) row "mag_b" = Some vb
               ∧ field (colnames p) row "mag_y" = Some vy
               ∧ field (colnames t) row' "mag_b-y" = Some (sub vb vy)
               ∧ ∀ n, n ≠ "mag_b-y" →
                      field (colnames t) row' n = field (colnames p) row n.
Proof.
  intros Hwf. unfold colour_column.
  destruct (decide ("mag_b" ∈ colnames p)) as [Hb|Hb];
    [|by rewrite (getitem_column_missing p "mag_b")].
  destruct (decide ("mag_y" ∈ colnames p)) as [Hy|Hy].
  2:{ destruct (getitem_column p "mag_b"); cbn [mbind outcome_bind];
        [by rewrite (getitem_column_missing p "mag_y")|done..]. }
  destruct (getitem_column_Ok p "mag_b" Hb Hwf) as (ib & cb & Hfb & -> & Hcb).
  destruct (getitem_column_Ok p "mag_y" Hy Hwf) as (iy & cy & Hfy & -> & Hcy).
  cbn [mbind outcome_bind]. intros Hset.
  assert (colnames p ≠ []) as Hne by (intros E; rewrite E in Hb; by inv Hb).
  destruct (setitem_column_rows p t "mag_b-y" _ Hne Hwf Hset)
    as (_ & Hlen & Hcells).
  split; [done|]. intros k row row' Hrow Hrow'.
  destruct (Forall2_lookup_l _ _ _ _ _ Hcb Hrow) as (vb & Hvb & Hrb).
  destruct (Forall2_lookup_l _ _ _ _ _ Hcy Hrow) as (vy & Hvy & Hry).
  exists vb, vy.
  rewrite (field_find _ row "mag_b" "mag_b" ib Hfb).
  rewrite (field_find _ row "mag_y" "mag_y" iy Hfy).
  split; [done|]. split; [done|].
  apply (Hcells k row (sub vb vy) row' Hrow); [|done].
  apply lookup_zip_with_Some. by exists vb, vy.
Qed.

(** X14.  The colour: the call returns exactly when the table has the
    columns ['mag_b'] and ['mag_y'], and raises [KeyError] otherwise.  The
    table it returns has the same rows in the same order, each with the
    difference of its two magnitudes as field ['mag_b-y'] and its other
    fields unchanged. *)
Theorem colour_column_spec (sub : V → V → V) p :
  Forall (λ row, length row = length (colnames p)) (rows p) →
  if decide ("mag_b" ∈ colnames p ∧ "mag_y" ∈ colnames p)
  then ∃ t, colour_column sub p = Ok t
            ∧ Forall2 (λ row row',
                 ∃ vb vy, field (colnames p) row "mag_b" = Some vb
                          ∧ field (colnames p) row "mag_y" = Some vy
                          ∧ field (colnames t) row' "mag_b-y" = Some (sub vb vy)
                          ∧ ∀ n, n ≠ "mag_b-y" →
                                 field (colnames t) row' n
                                 = field (colnames p) row n)
                (rows p) (rows t)
  else colour_column sub p = Raise KeyError.
Proof.
  intros Hwf. case_decide as Hboth.
  - destruct Hboth as [Hb Hy].
    assert (∃ t, colour_column sub p = Ok t) as [t Ht].
    { unfold colour_column.
      destruct (getitem_column_Ok p "mag_b" Hb Hwf) as (ib & cb & _ & -> & Hcb).
      destruct (getitem_column_Ok p "mag_y" Hy Hwf) as (iy & cy & _ & -> & Hcy).
      cbn [mbind outcome_bind]. unfold setitem_column.
      destruct (colnames p) as [|n0 ns] eqn:En; [by inv Hb|].
      rewrite bool_decide_eq_true_2.
      - destruct (list_find _ _) as [[i m]|]; by eexists.
      - rewrite length_zip_with, <- (Forall2_length _ _ _ Hcb),
          <- (Forall2_length _ _ _ Hcy). lia. }
    exists t. split; [done|].
    destruct (colour_column_rows sub p t Hwf Ht) as [Hlen Hcells].
    apply Forall2_same_length_lookup_2; [done|].
    intros k row row' Hrow Hrow'. by apply (Hcells k).
  - unfold colour_column.
    destruct (decide ("mag_b" ∈ colnames p)) as [Hb|Hb];
      [|by rewrite (getitem_column_missing p "mag_b")].
    destruct (getitem_column_Ok p "mag_b" Hb Hwf) as (ib & cb & _ & -> & _).
    cbn [mbind outcome_bind].
    rewrite (getitem_column_missing p "mag_y"); [done|].
    intros Hy. by apply Hboth.
Qed.
End ColourFacts.

(** X15.  The colour of a merged star.  When the cell that makes
    [phot_ins] returns, for catalogs with a column ['mag'], its rows are
    built, in order, from the kept candidates: the row of a candidate has
    the magnitude of its left star as ['mag_b'], the magnitude of the right
    star matched to it as ['mag_y'], and their difference as ['mag_b-y']. *)
Theorem phot_ins_cell_colour {V : Type} `{!EqDecision V} (sub : V → V → V)
    (pos : list Candidate) (b y t : Table V) :
  phot_ins_cell sub pos b y = Ok t →
  Forall (λ l, length l = length (colnames b)) (rows b) →
  Forall (λ r, length r = length (colnames y)) (rows y) →
  "mag" ∈ colnames b → "mag" ∈ colnames y →
  Forall2 (λ cp row,
     ∃ l r mb my,
       rows b !! cp.2 = Some l
       ∧ rows y !! index cp.1 = Some r
       ∧ field (colnames b) l "mag" = Some mb
       ∧ field (colnames y) r "mag" = Some my
       ∧ field (colnames t) row "mag_b" = Some mb
       ∧ field (colnames t) row "mag_y" = Some my
       ∧ field (colnames t) row "mag_b-y" = Some (sub mb my))
    (kept arcsec3_degree pos) (rows t).
Proof.
  intros Hcell Hlw Hrw Hinb Hiny. unfold phot_ins_cell, join_catalogs in Hcell.
  destruct (join_catalogs_within arcsec3_degree pos b y) as [res| |] eqn:Hjoin;
    [|done..].
  cbn [mbind outcome_bind] in Hcell.
  destruct (tidy_column_names res) as [res'| |] eqn:Htidy; [|done..].
  cbn [mbind outcome_bind] in Hcell.
  destruct (join_catalogs_within_inv _ _ _ _ _ Hjoin) as (Hn & _ & Hrows).
  destruct (merged_colnames_inv _ _ _ Hn) as [_ Hnd].
  destruct (tidy_column_names_inv res res' Hnd Htidy) as (Hnames' & Hnd' & Hsame).
  assert (Forall (λ row, length row = length (colnames res')) (rows res'))
    as Hwf.
  { rewrite Hsame, Hnames', length_fmap. apply Forall_forall. intros row Hrow.
    apply list_elem_of_lookup in Hrow as [i Hi].
    destruct (Forall2_lookup_r _ _ _ _ _ Hrows Hi)
      as (cp & _ & _ & l & r & Hl & Hr & ->).
    rewrite Forall_forall in Hlw, Hrw.
    apply (merged_row_length b y); [done| |].
    - apply Hlw. by eapply list_elem_of_lookup_2.
    - apply Hrw. by eapply list_elem_of_lookup_2. }
  destruct (colour_column_rows sub res' t Hwf Hcell) as [Hlen Hcells].
  rewrite Hsame in Hlen.
  apply Forall2_same_length_lookup_2.
  { rewrite Hlen. by eapply Forall2_length. }
  intros k cp row' Hcp Hrow'.
  destruct (Forall2_lookup_l _ _ _ _ _ Hrows Hcp)
    as (row & Hrow & _ & l & r & Hl & Hr & ->).
  rewrite <- Hsame in Hrow.
  destruct (Hcells k _ row' Hrow Hrow') as (vb & vy & Hvb & Hvy & Hdiff & Hrest).
  destruct (tidied_shared_fields b y res res' l r "mag" Hn Hnames' Hnd')
    as (_ & _ & Hfb & Hfy); [| |done|done|].
  { rewrite Forall_forall in Hlw. apply Hlw. by eapply list_elem_of_lookup_2. }
  { rewrite Forall_forall in Hrw. apply Hrw. by eapply list_elem_of_lookup_2. }
  change (new_name "mag" +:+ "_b") with "mag_b" in Hfb.
  change (new_name "mag" +:+ "_y") with "mag_y" in Hfy.
  exists l, r, vb, vy. split; [done|]. split; [done|].
  split; [by rewrite <- Hfb|]. split; [by rewrite <- Hfy|].
  split; [by rewrite Hrest|]. split; [by rewrite Hrest|done].
Qed.

(** * The order of the left catalog *)

Section OrderFree.
Context {V : Type}.
Implicit Types (c : Q) (it : list Candidate) (ltab rtab res : Table V).

Lemma zip_rows_paired it (ls rs : list (list V)) rtab :
  Forall2 (λ i r, rows rtab !! i = Some r) (index <$> it) rs →
  length it = length ls →
  zip_rows it ls rs = paired_row rtab <$> zip it ls.
Proof.
  intros Hrs Hl. apply list_eq. intros k.
  rewrite zip_rows_lookup, list_lookup_fmap, lookup_zip_with.
  destruct (it !! k) as [cand|] eqn:Ec; [|done]. cbn.
  destruct (ls !! k) as [l|] eqn:El; [|done]. cbn.
  assert ((index <$> it) !! k = Some (index cand)) as Hk
    by (by rewrite list_lookup_fmap, Ec).
  destruct (Forall2_lookup_l _ _ _ _ _ Hrs Hk) as (r & -> & Hr). cbn.
  unfold paired_row. cbn. by rewrite Hr.
Qed.

(** The rows of a returned table, from the candidates paired with their
    left rows. *)
Lemma join_catalogs_within_paired c it ltab rtab res :
  join_catalogs_within c it ltab rtab = Ok res →
  merged_colnames ltab rtab = Ok (colnames res)
  ∧ rows res = (λ r, m_left r ++ m_right r)
               <$> (paired_row rtab
                      <$> selected fst c (zip it (rows ltab))).
Proof.
  intros Hjoin.
  destruct (join_catalogs_within_inv _ _ _ _ _ Hjoin) as (Hn & _ & _).
  split; [done|]. revert Hjoin.
  rewrite join_catalogs_within_unfold. unfold getitem_rows.
  destruct (mapM (λ i, rows rtab !! i) (index <$> it)) as [rs|] eqn:Ers;
    [|done].
  cbn [mbind outcome_bind rows].
  destruct (hstack_colnames index_table_colnames (colnames ltab) (colnames rtab))
    as [[[n1 n2] n3]| |]; [|done|done].
  cbn [mbind outcome_bind].
  destruct (Nat.eqb_spec (length it) (length (rows ltab))) as [Hl|]; [|done].
  destruct (Nat.eqb_spec (length it) (length rs)) as [Hr|]; [|done].
  cbn [andb]. rewrite Hn. cbn [mbind outcome_bind]. intros [= <-].
  cbn [rows]. apply mapM_Some in Ers.
  rewrite (zip_rows_paired it (rows ltab) rs rtab Ers Hl).
  by rewrite selected_fmap.
Qed.

(** Sorting rows that are told apart by their keys gives the same list,
    whatever their order was. *)
Lemma sort_rows_order_free {A : Type} (key : A → Candidate) (l l' : list A) :
  l' ≡ₚ l →
  (∀ x1 x2, x1 ∈ l → x2 ∈ l →
            index (key x1) = index (key x2) →
            (distance (key x1) == distance (key x2))%Q → x1 = x2) →
  sort_rows key l' = sort_rows key l.
Proof.
  intros Hperm Htie.
  apply (StronglySorted_unique_strong (row_le key)).
  - intros x1 x2 Hx1 Hx2 H12 H21.
    rewrite sort_rows_perm in Hx1, Hx2. rewrite Hperm in Hx1.
    unfold row_le in H12, H21. rewrite key_le_spec in H12, H21.
    destruct H12 as [?|[? ?]], H21 as [?|[? ?]]; try lia.
    apply Htie; [done|done|done|]. by apply Qle_antisym.
  - apply sort_rows_sorted.
  - apply sort_rows_sorted.
  - by rewrite !sort_rows_perm.
Qed.

(** X16.  The merged catalog does not depend on the order of the left
    catalog: when the left rows, each with its row of [index_table], are
    put in another order, the call returns the same table, provided that
    rows of [index_table] with the same index and the same distance come
    with the same left row. *)
Theorem join_catalogs_order_free c it it' ltab ltab' rtab res res' :
  join_catalogs_within c it ltab rtab = Ok res →
  join_catalogs_within c it' ltab' rtab = Ok res' →
  colnames ltab' = colnames ltab →
  zip it' (rows ltab') ≡ₚ zip it (rows ltab) →
  (∀ x1 x2, x1 ∈ zip it (rows ltab) → x2 ∈ zip it (rows ltab) →
            index x1.1 = index x2.1 →
            (distance x1.1 == distance x2.1)%Q → x1 = x2) →
  res' = res.
Proof.
  intros Hjoin Hjoin' Hcols Hperm Htie.
  destruct (join_catalogs_within_paired _ _ _ _ _ Hjoin) as [Hn Hrows].
  destruct (join_catalogs_within_paired _ _ _ _ _ Hjoin') as [Hn' Hrows'].
  assert (merged_colnames ltab' rtab = merged_colnames ltab rtab) as Hsame
    by (unfold merged_colnames; by rewrite Hcols).
  rewrite Hsame, Hn in Hn'. injection Hn' as Hnames.
  destruct res as [names rs], res' as [names' rs']. cbn [colnames rows] in *.
  subst names' rs rs'. f_equal.
  rewrite !selected_pick.
  by rewrite (sort_rows_order_free fst _ _ Hperm Htie).
Qed.
End OrderFree.

(** * The further properties on the small catalogs *)

Example phot_ins_cell_example :
  phot_ins_cell written_sub pos_by b_catalog y_catalog = Ok phot_ins_colour.
Proof. reflexivity. Qed.

Example second_join_example :
  join_catalogs pos_std_ins phot_std phot_ins_colour = Ok phot_std_ins.
Proof. reflexivity. Qed.

Lemma join_catalogs_returns_iff_witness :
  length pos_by = length (rows b_catalog)
  ∧ colnames y_catalog ≠ []
  ∧ ((∃ res, join_catalogs_within arcsec3_degree pos_by b_catalog y_catalog
             = Ok res) ↔
     keys_free b_catalog y_catalog
     ∧ NoDup (left_out_names b_catalog y_catalog
              ++ right_out_names b_catalog y_catalog)
     ∧ Forall (λ cand, index cand < length (rows y_catalog)) pos_by).
Proof.
  assert (colnames y_catalog ≠ []) as Hcol by discriminate.
  split; [reflexivity|]. split; [exact Hcol|].
  apply (join_catalogs_returns_iff arcsec3_degree pos_by b_catalog y_catalog);
    [reflexivity|exact Hcol].
Defined.

Lemma join_catalogs_index_error_iff_witness :
  colnames y_catalog ≠ []
  ∧ Exists (λ cand, length (rows y_catalog) ≤ index cand) pos_three_beyond
  ∧ length pos_three_beyond = length (rows b_three)
  ∧ join_catalogs_within arcsec3_degree pos_three_beyond b_three y_catalog
    = Raise IndexError.
Proof.
  assert (colnames y_catalog ≠ []) as Hcol by discriminate.
  assert (Exists (λ cand, length (rows y_catalog) ≤ index cand)
            pos_three_beyond) as Hex
    by (apply Exists_cons_tl, Exists_cons_hd; cbn; lia).
  split; [exact Hcol|]. split; [exact Hex|]. split; [reflexivity|].
  destruct (join_catalogs_index_error_iff arcsec3_degree pos_three_beyond
              b_three y_catalog Hcol) as [Hraise _].
  exact (Hraise Hex).
Defined.

Lemma join_catalogs_drops_keys_witness :
  join_catalogs_within arcsec3_degree pos_by b_catalog y_catalog = Ok phot_ins
  ∧ ("index" ∉ colnames phot_ins)
  ∧ ("distance" ∉ colnames phot_ins)
  ∧ length (colnames phot_ins)
    = length (colnames b_catalog) + length (colnames y_catalog).
Proof.
  split; [reflexivity|].
  apply (join_catalogs_drops_keys arcsec3_degree pos_by b_catalog y_catalog
           phot_ins).
  reflexivity.
Defined.

Lemma join_catalogs_rows_complete_witness :
  join_catalogs_within arcsec3_degree pos_by b_catalog y_catalog = Ok phot_ins
  ∧ Forall (λ l, length l = length (colnames b_catalog)) (rows b_catalog)
  ∧ Forall (λ r, length r = length (colnames y_catalog)) (rows y_catalog)
  ∧ Forall (λ row, length row = length (colnames phot_ins)) (rows phot_ins).
Proof.
  assert (Forall (λ l, length l = length (colnames b_catalog)) (rows b_catalog))
    as Hl by (repeat constructor).
  assert (Forall (λ r, length r = length (colnames y_catalog)) (rows y_catalog))
    as Hr by (repeat constructor).
  split; [reflexivity|]. split; [exact Hl|]. split; [exact Hr|].
  apply (join_catalogs_rows_complete arcsec3_degree pos_by b_catalog y_catalog
           phot_ins); [reflexivity|exact Hl|exact Hr].
Defined.

Lemma join_catalogs_row_count_witness :
  length pos_std_ins = length (rows phot_std)
  ∧ colnames phot_ins_colour ≠ []
  ∧ join_catalogs_within arcsec3_degree pos_std_ins phot_std phot_ins_colour
    = Ok phot_std_ins
  ∧ length (rows phot_std_ins) ≤ length (rows phot_std)
  ∧ length (rows phot_std_ins) ≤ length (rows phot_ins_colour).
Proof.
  assert (colnames phot_ins_colour ≠ []) as Hcol by discriminate.
  split; [reflexivity|]. split; [exact Hcol|]. split; [reflexivity|].
  apply (join_catalogs_row_count arcsec3_degree pos_std_ins phot_std
           phot_ins_colour phot_std_ins); [reflexivity|exact Hcol|reflexivity].
Defined.

Lemma join_catalogs_keeps_all_witness :
  length pos_three = length (rows b_three)
  ∧ colnames y_catalog ≠ []
  ∧ NoDup (index <$> pos_three)
  ∧ Forall (λ cand, (distance cand < arcsec3_degree)%Q) pos_three
  ∧ ∃ res, join_catalogs_within arcsec3_degree pos_three b_three y_catalog = Ok res
           ∧ length (rows res) = length (rows b_three)
           ∧ kept arcsec3_degree pos_three ≡ₚ numbered pos_three
           ∧ Forall2 (merged_from pos_three b_three y_catalog)
               (kept arcsec3_degree pos_three) (rows res).
Proof.
  assert (colnames y_catalog ≠ []) as Hcol by discriminate.
  assert (NoDup (index <$> pos_three)) as Hnd.
  { cbn. repeat constructor; intros Hin;
      repeat (apply elem_of_cons in Hin as [Hin|Hin]; [discriminate Hin|]);
      by apply elem_of_nil in Hin. }
  assert (Forall (λ cand, (distance cand < arcsec3_degree)%Q) pos_three) as Hnear
    by (repeat constructor; unfold Qlt; cbn; lia).
  split; [reflexivity|]. split; [exact Hcol|].
  split; [exact Hnd|]. split; [exact Hnear|].
  eexists. split; [reflexivity|].
  apply (join_catalogs_keeps_all arcsec3_degree pos_three b_three y_catalog);
    [reflexivity|exact Hcol|reflexivity|exact Hnd|exact Hnear].
Defined.

Lemma join_catalogs_left_used_once_witness :
  join_catalogs_within arcsec3_degree pos_by b_catalog y_catalog = Ok phot_ins
  ∧ Forall2 (merged_from pos_by b_catalog y_catalog)
      (kept arcsec3_degree pos_by) (rows phot_ins)
  ∧ NoDup (kept arcsec3_degree pos_by).*2.
Proof.
  split; [reflexivity|].
  apply (join_catalogs_left_used_once arcsec3_degree pos_by b_catalog
           y_catalog phot_ins).
  reflexivity.
Defined.

Lemma join_catalogs_keeps_unshared_names_witness :
  join_catalogs_within arcsec3_degree pos_std_ins phot_std phot_ins_colour
  = Ok phot_std_ins
  ∧ Forall2 (λ cp row,
       ∃ l r, rows phot_std !! cp.2 = Some l
              ∧ rows phot_ins_colour !! index cp.1 = Some r
              ∧ ("mag_b-y" ∈ colnames phot_std →
                 "mag_b-y" ∉ colnames phot_ins_colour →
                 is_Some (field (colnames phot_std) l "mag_b-y")
                 ∧ field (colnames phot_std_ins) row "mag_b-y"
                   = field (colnames phot_std) l "mag_b-y")
              ∧ ("mag_b-y" ∈ colnames phot_ins_colour →
                 "mag_b-y" ∉ colnames phot_std →
                 is_Some (field (colnames phot_ins_colour) r "mag_b-y")
                 ∧ field (colnames phot_std_ins) row "mag_b-y"
                   = field (colnames phot_ins_colour) r "mag_b-y"))
      (kept arcsec3_degree pos_std_ins) (rows phot_std_ins).
Proof.
  split; [reflexivity|].
  apply (join_catalogs_keeps_unshared_names arcsec3_degree pos_std_ins phot_std
           phot_ins_colour phot_std_ins "mag_b-y");
    [reflexivity|repeat constructor..].
Defined.

Lemma tidy_column_names_returns_iff_witness :
  NoDup (colnames phot_ins)
  ∧ tidy_column_names phot_ins
    = if decide (NoDup (new_name <$> colnames phot_ins))
      then Ok {| colnames := new_name <$> colnames phot_ins;
                 rows := rows phot_ins |}
      else Raise KeyError.
Proof.
  assert (NoDup (colnames phot_ins)) as Hnd
    by (apply (bool_decide_unpack _); reflexivity).
  split; [exact Hnd|].
  apply (tidy_column_names_returns_iff phot_ins Hnd).
Defined.

Lemma tidy_column_names_idempotent_witness :
  NoDup (colnames phot_ins)
  ∧ tidy_column_names phot_ins = Ok phot_ins_tidy
  ∧ tidy_column_names phot_ins_tidy = Ok phot_ins_tidy.
Proof.
  assert (NoDup (colnames phot_ins)) as Hnd
    by (apply (bool_decide_unpack _); reflexivity).
  split; [exact Hnd|]. split; [reflexivity|].
  apply (tidy_column_names_idempotent phot_ins phot_ins_tidy Hnd).
  reflexivity.
Defined.

Lemma tidy_suffixes_b_y_witness :
  join_catalogs_within arcsec3_degree pos_by b_catalog y_catalog = Ok phot_ins
  ∧ tidy_column_names phot_ins = Ok phot_ins_tidy
  ∧ Forall2 (λ cp row,
       ∃ l r, rows b_catalog !! cp.2 = Some l
              ∧ rows y_catalog !! index cp.1 = Some r
              ∧ is_Some (field (colnames b_catalog) l "mag")
              ∧ is_Some (field (colnames y_catalog) r "mag")
              ∧ field (colnames phot_ins_tidy) row (new_name "mag" +:+ "_b")
                = field (colnames b_catalog) l "mag"
              ∧ field (colnames phot_ins_tidy) row (new_name "mag" +:+ "_y")
                = field (colnames y_catalog) r "mag")
      (kept arcsec3_degree pos_by) (rows phot_ins_tidy).
Proof.
  split; [reflexivity|]. split; [reflexivity|].
  apply (tidy_suffixes_b_y arcsec3_degree pos_by b_catalog y_catalog phot_ins
           phot_ins_tidy "mag");
    [reflexivity|reflexivity|repeat constructor..].
Defined.

Lemma select_eq_split_witness :
  Forall (λ row, length row = length (colnames read_catalog)) (rows read_catalog)
  ∧ select_eq read_catalog "Filename" "bfa_m67_b_1.fit" = Ok read_b
  ∧ select_eq read_catalog "Filename" "bfa_m67_y_1.fit" = Ok read_y
  ∧ "bfa_m67_b_1.fit" ≠ "bfa_m67_y_1.fit"
  ∧ colnames read_b = colnames read_catalog
  ∧ colnames read_y = colnames read_catalog
  ∧ rows read_b `sublist_of` rows read_catalog
  ∧ rows read_y `sublist_of` rows read_catalog
  ∧ Forall (λ row, field (colnames read_catalog) row "Filename"
                   = Some "bfa_m67_b_1.fit") (rows read_b)
  ∧ Forall (λ row, field (colnames read_catalog) row "Filename"
                   = Some "bfa_m67_y_1.fit") (rows read_y)
  ∧ (∀ row, row ∈ rows read_b → row ∉ rows read_y)
  ∧ length (rows read_b) + length (rows read_y) ≤ length (rows read_catalog).
Proof.
  assert (Forall (λ row, length row = length (colnames read_catalog))
            (rows read_catalog)) as Hwf by (repeat constructor).
  assert ("bfa_m67_b_1.fit" ≠ "bfa_m67_y_1.fit") as Hne by discriminate.
  split; [exact Hwf|]. split; [reflexivity|]. split; [reflexivity|].
  split; [exact Hne|].
  apply (select_eq_split read_catalog read_b read_y "Filename"
           "bfa_m67_b_1.fit" "bfa_m67_y_1.fit" Hwf); [reflexivity..|exact Hne].
Defined.


Lemma colour_column_spec_witness :
  Forall (λ row, length row = length (colnames phot_ins_tidy))
    (rows phot_ins_tidy)
  ∧ if decide ("mag_b" ∈ colnames phot_ins_tidy
               ∧ "mag_y" ∈ colnames phot_ins_tidy)
    then ∃ t, colour_column written_sub phot_ins_tidy = Ok t
              ∧ Forall2 (λ row row',
                   ∃ vb vy,
                     field (colnames phot_ins_tidy) row "mag_b" = Some vb
                     ∧ field (colnames phot_ins_tidy) row "mag_y" = Some vy
                     ∧ field (colnames t) row' "mag_b-y"
                       = Some (written_sub vb vy)
                     ∧ ∀ n, n ≠ "mag_b-y" →
                            field (colnames t) row' n
                            = field (colnames phot_ins_tidy) row n)
                  (rows phot_ins_tidy) (rows t)
    else colour_column written_sub phot_ins_tidy = Raise KeyError.
Proof.
  assert (Forall (λ row, length row = length (colnames phot_ins_tidy))
            (rows phot_ins_tidy)) as Hwf by (repeat constructor).
  split; [exact Hwf|].
  apply (colour_column_spec written_sub phot_ins_tidy Hwf).
Defined.

Lemma phot_ins_cell_colour_witness :
  phot_ins_cell written_sub pos_by b_catalog y_catalog = Ok phot_ins_colour
  ∧ Forall2 (λ cp row,
       ∃ l r mb my,
         rows b_catalog !! cp.2 = Some l
         ∧ rows y_catalog !! index cp.1 = Some r
         ∧ field (colnames b_catalog) l "mag" = Some mb
         ∧ field (colnames y_catalog) r "mag" = Some my
         ∧ field (colnames phot_ins_colour) row "mag_b" = Some mb
         ∧ field (colnames phot_ins_colour) row "mag_y" = Some my
         ∧ field (colnames phot_ins_colour) row "mag_b-y"
           = Some (written_sub mb my))
      (kept arcsec3_degree pos_by) (rows phot_ins_colour).
Proof.
  split; [reflexivity|].
  apply (phot_ins_cell_colour written_sub pos_by b_catalog y_catalog
           phot_ins_colour); [reflexivity|repeat constructor..].
Defined.

Lemma join_catalogs_order_free_witness :
  join_catalogs_within arcsec3_degree pos_by b_catalog y_catalog = Ok phot_ins
  ∧ join_catalogs_within arcsec3_degree pos_by_rev b_catalog_rev y_catalog
    = Ok phot_ins
  ∧ zip pos_by_rev (rows b_catalog_rev) ≡ₚ zip pos_by (rows b_catalog)
  ∧ phot_ins = phot_ins.
Proof.
  assert (zip pos_by_rev (rows b_catalog_rev) ≡ₚ zip pos_by (rows b_catalog))
    as Hperm.
  { change (zip pos_by_rev (rows b_catalog_rev))
      with (reverse (zip pos_by (rows b_catalog))).
    apply reverse_Permutation. }
  split; [reflexivity|]. split; [reflexivity|]. split; [exact Hperm|].
  apply (join_catalogs_order_free arcsec3_degree pos_by pos_by_rev b_catalog
           b_catalog_rev y_catalog phot_ins phot_ins);
    [reflexivity|reflexivity|reflexivity|exact Hperm|].
  intros x1 x2 H1 H2 Hidx Hd.
  cbn in H1, H2.
  repeat (apply elem_of_cons in H1 as [->|H1]);
    try (by apply elem_of_nil in H1);
    repeat (apply elem_of_cons in H2 as [->|H2]);
    try (by apply elem_of_nil in H2);
    try reflexivity; try (cbn in Hidx; discriminate Hidx);
    exfalso; unfold Qeq in Hd; cbn in Hd; lia.
Defined.
